(** * DataGrid: the view-state engine of [DataGridComponent.jsx]

    A shallow embedding of the [DataGrid] container component: the
    filter-then-sort pipeline ([sortedFilteredData]) and the three
    mutation handlers ([handleSort], [handleFilter], [handleRowSelect]),
    together with the part of the JavaScript host they rely on
    (relational comparison, [Array.prototype.filter] and [sort],
    [Object.entries], [Set]). *)

From Stdlib Require Import ZArith Ascii String.
From stdpp Require Import base decidable option list sorting strings gmap fin_maps.

Local Open Scope string_scope.
Local Open Scope Z_scope.
Local Open Scope list_scope.

(** ** Host values and the relational operators *)

Module Js.

(** Primitive values a row field can hold.  The numbers are the
    integers [VNum z] and [VNaN]; a field that is absent reads as
    [VUndefined]. *)
Inductive Value : Type :=
| VUndefined
| VNull
| VBool (b : bool)
| VNum (z : Z)
| VNaN
| VStr (s : string).

#[global] Instance Value_eq_dec : EqDecision Value.
Proof. solve_decision. Defined.

(** White space stripped by [StringToNumber]. *)
Definition is_space (c : ascii) : bool :=
  match N_of_ascii c with
  | 9%N | 10%N | 11%N | 12%N | 13%N | 32%N => true
  | _ => false
  end.

Fixpoint trim_left (s : string) : string :=
  match s with
  | String c s' => if is_space c then trim_left s' else s
  | EmptyString => EmptyString
  end.

Fixpoint all_space (s : string) : bool :=
  match s with
  | String c s' => is_space c && all_space s'
  | EmptyString => true
  end.

(** [digits acc s]: the decimal numeral [s], possibly followed by white
    space only, read after the digits already accumulated in [acc]. *)
Fixpoint digits (acc : Z) (s : string) : option Z :=
  match s with
  | EmptyString => Some acc
  | String c s' =>
      let n := Z.of_N (N_of_ascii c) in
      if ((48 <=? n) && (n <=? 57))%Z then digits (10 * acc + (n - 48)) s'
      else if all_space s then Some acc else None
  end.

Definition is_digit (c : ascii) : bool :=
  let n := Z.of_N (N_of_ascii c) in ((48 <=? n) && (n <=? 57))%Z.

(** [StringToNumber] on the numerals of the model's numbers: optional
    white space, an optional sign and decimal digits; the empty (or
    blank) string is [0]; [None] stands for [NaN]. *)
Definition StringToNumber (s : string) : option Z :=
  match trim_left s with
  | EmptyString => Some 0
  | String "+" (String c _ as r) => if is_digit c then digits 0 r else None
  | String "-" (String c _ as r) =>
      if is_digit c then Z.opp <$> digits 0 r else None
  | String c _ as r => if is_digit c then digits 0 r else None
  end.

(** [ToNumber]; [None] stands for [NaN]. *)
Definition ToNumber (v : Value) : option Z :=
  match v with
  | VUndefined => None
  | VNull => Some 0
  | VBool b => Some (if b then 1 else 0)
  | VNum z => Some z
  | VNaN => None
  | VStr s => StringToNumber s
  end.

(** [x < y]: two strings are compared by code units, anything else
    numerically, and a comparison involving [NaN] is false. *)
Definition js_lt (x y : Value) : bool :=
  match x, y with
  | VStr s, VStr t => String.ltb s t
  | _, _ =>
      match ToNumber x, ToNumber y with
      | Some a, Some b => (a <? b)%Z
      | _, _ => false
      end
  end.

(** [x > y] is [y < x]. *)
Definition js_gt (x y : Value) : bool := js_lt y x.

End Js.

Export Js.

(** ** Rows, sort specifications and filter registries *)

(** A row is a plain data object: [row_ref] is its identity (two rows
    are the same object when they are equal as records) and
    [row_fields] its own properties, which the engine never writes. *)
Record Row : Type := mkRow {
  row_ref : nat;
  row_fields : gmap string Value;
}.

#[global] Instance Row_eq_dec : EqDecision Row.
Proof. solve_decision. Defined.

(** [ToPropertyKey] of a key that is a string or [undefined]. *)
Definition prop_key (k : option string) : string :=
  match k with Some s => s | None => "undefined" end.

(** [row[key]]: a property that is absent reads as [undefined]. *)
Definition row_get (row : Row) (key : option string) : Value :=
  default VUndefined (row_fields row !! prop_key key).

(** The [sort] state: [{ field, direction }], either of which may be
    missing (the initial state is [defaultSort || {}]). *)
Record SortSpec : Type := mkSort {
  sort_field : option string;
  sort_direction : option string;
}.

#[global] Instance SortSpec_eq_dec : EqDecision SortSpec.
Proof. solve_decision. Defined.

(** The [filters] state: an object from field names to a predicate, or
    to a falsy value ([None]) left there by a cleared filter.  The
    enumeration order of the map stands for the property order of the
    object; [apply_filter_any_order] shows that the pipeline does not
    depend on it. *)
Abbreviation FilterRegistry := (gmap string (option (Row -> bool))).

(** Truthiness of [sort.field]: a string is truthy unless it is empty. *)
Definition truthy (k : option string) : bool :=
  match k with
  | Some s => negb (String.eqb s "")
  | None => false
  end.

(** ** The host's arrays: [filter] and [sort] on contents *)

Section HostArray.
Context {A : Type}.

(** [Array.prototype.sort(comparefn)], which the language requires to
    be stable, as a stable insertion sort: [comparefn x y > 0] puts [x]
    after [y], anything else keeps [x] first.  For a comparator that is
    consistent on the elements this is the only ordered and stable
    arrangement ([Array_sort_unique]), the one every conforming host
    returns ([conforming_view]).  For any other comparator the language
    leaves the order to the implementation and hosts differ:
    [V8.Array_sort] below is another conforming sort, and what is proved
    of the order of this one on such a comparator holds of this one
    only. *)
Fixpoint sort_insert (comparefn : A -> A -> Z) (x : A) (l : list A) : list A :=
  match l with
  | [] => [x]
  | y :: l' =>
      if (comparefn x y <=? 0)%Z then x :: y :: l'
      else y :: sort_insert comparefn x l'
  end.

Fixpoint Array_sort (comparefn : A -> A -> Z) (l : list A) : list A :=
  match l with
  | [] => []
  | x :: l' => sort_insert comparefn x (Array_sort comparefn l')
  end.

(** [comparefn] lets [x] stay in front of [y]. *)
Definition before (comparefn : A -> A -> Z) (x y : A) : Prop :=
  comparefn x y <= 0.

(** The elements that [comparefn] lets stand on either side of [r]. *)
Definition tie_class (comparefn : A -> A -> Z) (r x : A) : bool :=
  (comparefn r x <=? 0) && (comparefn x r <=? 0).

End HostArray.

(** ** The view pipeline, on array contents *)

(** The comparator handed to [filteredData.sort]. *)
Definition compare_rows (sort : SortSpec) (a b : Row) : Z :=
  let aValue := row_get a (sort_field sort) in
  let bValue := row_get b (sort_field sort) in
  let direction : Z :=
    if decide (sort_direction sort = Some "asc") then 1 else -1 in
  if js_gt aValue bValue then direction
  else if js_lt aValue bValue then - direction
  else 0.

(** One step of the [forEach] over [Object.entries(filters)]. *)
Definition apply_filter (filteredData : list Row)
    (entry : string * option (Row -> bool)) : list Row :=
  match entry.2 with
  | Some filterFn => List.filter filterFn filteredData
  | None => filteredData
  end.

Definition sortedFilteredData (data : list Row)
    (filters : FilterRegistry) (sort : SortSpec) : list Row :=
  let filteredData := foldl apply_filter data (map_to_list filters) in
  if truthy (sort_field sort)
  then Array_sort (compare_rows sort) filteredData
  else filteredData.

(** ** The view pipeline, on the array store

    [sortedFilteredData] above computes the contents of the returned
    array.  The source works on array objects: [[...data]] and
    [filter] allocate, [sort] overwrites its receiver.  [Mem] is the
    store of array objects and [sortedFilteredData_mem] the same
    computation with every allocation and write spelled out. *)

Module Mem.

Abbreviation loc := nat.
Abbreviation store := (gmap nat (list Row)).

(** A computation reads and updates the store, or fails on a dangling
    reference. *)
Definition M (A : Type) : Type := store -> option (A * store).

Definition ret {A} (a : A) : M A := fun h => Some (a, h).

Definition bind {A B} (m : M A) (k : A -> M B) : M B :=
  fun h => match m h with
           | Some (a, h') => k a h'
           | None => None
           end.

Definition read (l : loc) : M (list Row) :=
  fun h => match h !! l with
           | Some rows => Some (rows, h)
           | None => None
           end.

Definition alloc (rows : list Row) : M loc :=
  fun h => let l := fresh (dom h) in Some (l, <[l := rows]> h).

Definition write (l : loc) (rows : list Row) : M unit :=
  fun h => match h !! l with
           | Some _ => Some (tt, <[l := rows]> h)
           | None => None
           end.

Fixpoint foldM {A B} (f : A -> B -> M A) (a : A) (l : list B) : M A :=
  match l with
  | [] => ret a
  | b :: l' => bind (f a b) (fun a' => foldM f a' l')
  end.

End Mem.

Notation "'let*' x ':=' m 'in' k" := (Mem.bind m (fun x => k))
  (at level 10, x name, m at level 100, k at level 200).

(** [[...arr]]: a fresh array with the same elements. *)
Definition spread (arr : Mem.loc) : Mem.M Mem.loc :=
  let* rows := Mem.read arr in Mem.alloc rows.

(** [arr.filter(fn)]: a fresh array; the receiver is left alone. *)
Definition Array_filter_mem (fn : Row -> bool) (arr : Mem.loc) : Mem.M Mem.loc :=
  let* rows := Mem.read arr in Mem.alloc (List.filter fn rows).

(** [arr.sort(comparefn)]: sorts the receiver in place and returns it. *)
Definition Array_sort_mem (comparefn : Row -> Row -> Z) (arr : Mem.loc)
  : Mem.M Mem.loc :=
  let* rows := Mem.read arr in
  let* _ := Mem.write arr (Array_sort comparefn rows) in
  Mem.ret arr.

Definition apply_filter_mem (filteredData : Mem.loc)
    (entry : string * option (Row -> bool)) : Mem.M Mem.loc :=
  match entry.2 with
  | Some filterFn => Array_filter_mem filterFn filteredData
  | None => Mem.ret filteredData
  end.

Definition sortedFilteredData_mem (data : Mem.loc)
    (filters : FilterRegistry) (sort : SortSpec) : Mem.M Mem.loc :=
  let* filteredData := spread data in
  let* filteredData := Mem.foldM apply_filter_mem filteredData (map_to_list filters) in
  if truthy (sort_field sort)
  then let* _ := Array_sort_mem (compare_rows sort) filteredData in
       Mem.ret filteredData
  else Mem.ret filteredData.

(** ** The host's [Set], by insertion order *)

Module JsSet.
Section JsSet.
Context {A : Type} `{EqDecision A}.

Definition t : Type := list A.

(** [new Set()] *)
Definition empty : t := [].

(** [new Set(s)]: a copy with the same members in the same order. *)
Definition copy (s : t) : t := s.

Definition has (x : A) (s : t) : bool := bool_decide (x ∈ s).

(** [s.add(x)]: appended unless already a member. *)
Definition add (x : A) (s : t) : t := if has x s then s else s ++ [x].

(** [s.delete(x)] *)
Definition delete (x : A) (s : t) : t :=
  List.filter (fun y => negb (bool_decide (y = x))) s.

(** [[...s]]: the members in insertion order. *)
Definition to_array (s : t) : list A := s.

End JsSet.
End JsSet.

(** ** The controller: state, props and handlers *)

(** The three [useState] cells. *)
Record GridState : Type := mkState {
  sort : SortSpec;
  filters : FilterRegistry;
  selectedRows : list Row;
}.

(** The props that matter here; a listener prop is [true] when a truthy
    callback was supplied. *)
Record Props : Type := mkProps {
  data : list Row;
  defaultSort : option SortSpec;
  onSort : bool;
  onFilter : bool;
  onRowSelect : bool;
}.

(** A call of a listener prop, with its argument. *)
Inductive Call : Type :=
| CallOnSort (newSort : SortSpec)
| CallOnFilter (newFilters : FilterRegistry)
| CallOnRowSelect (rows : list Row).

(** State on mount: [defaultSort || {}], [{}], [new Set()]. *)
Definition initialState (props : Props) : GridState :=
  {| sort := default (mkSort None None) (defaultSort props);
     filters := ∅;
     selectedRows := JsSet.empty |}.

(** A handler returns the state of the next render and the listener
    calls it made, in order. *)
Definition handleSort (props : Props) (st : GridState) (field : string)
  : GridState * list Call :=
  let direction :=
    if bool_decide (sort_field (sort st) = Some field)
       && bool_decide (sort_direction (sort st) = Some "asc")
    then "desc" else "asc" in
  let newSort := {| sort_field := Some field; sort_direction := Some direction |} in
  ({| sort := newSort; filters := filters st; selectedRows := selectedRows st |},
   if onSort props then [CallOnSort newSort] else []).

Definition handleFilter (props : Props) (st : GridState) (field : string)
    (filterFn : option (Row -> bool)) : GridState * list Call :=
  let newFilters := <[field := filterFn]> (filters st) in
  ({| sort := sort st; filters := newFilters; selectedRows := selectedRows st |},
   if onFilter props then [CallOnFilter newFilters] else []).

Definition handleRowSelect (props : Props) (st : GridState) (row : Row)
  : GridState * list Call :=
  let newSelectedRows := JsSet.copy (selectedRows st) in
  let newSelectedRows :=
    if JsSet.has row newSelectedRows
    then JsSet.delete row newSelectedRows
    else JsSet.add row newSelectedRows in
  ({| sort := sort st; filters := filters st; selectedRows := newSelectedRows |},
   if onRowSelect props then [CallOnRowSelect (JsSet.to_array newSelectedRows)] else []).

(** The [data] broadcast to the slots. *)
Definition derivedView (props : Props) (st : GridState) : list Row :=
  sortedFilteredData (data props) (filters st) (sort st).

(** ** Vocabulary of the specification *)

(** [row[sort.field]] *)
Definition field_value (sort : SortSpec) (row : Row) : Value :=
  row_get row (sort_field sort).

(** [a] may come before [b] in the direction of [sort]: ascending when
    the direction is ['asc'], descending otherwise. *)
Definition ordered (sort : SortSpec) (a b : Row) : Prop :=
  if decide (sort_direction sort = Some "asc")
  then js_gt (field_value sort a) (field_value sort b) = false
  else js_lt (field_value sort a) (field_value sort b) = false.

(** The sort values of [a] and [b] are neither greater nor less than
    each other. *)
Definition tied (sort : SortSpec) (a b : Row) : Prop :=
  js_gt (field_value sort a) (field_value sort b) = false ∧
  js_lt (field_value sort a) (field_value sort b) = false.

(** Mutually comparable values: "not greater than" is transitive on
    them, so that [>] and [<] order them with ties as equivalence. *)
Definition Comparable (vs : list Value) : Prop :=
  ∀ x y z, x ∈ vs → y ∈ vs → z ∈ vs →
    js_gt x y = false → js_gt y z = false → js_gt x z = false.

Definition comparableb (vs : list Value) : bool :=
  forallb (fun x => forallb (fun y => forallb (fun z =>
    implb (negb (js_gt x y) && negb (js_gt y z)) (negb (js_gt x z))) vs) vs) vs.

Definition entry_passes (row : Row) (entry : string * option (Row -> bool)) : bool :=
  match entry.2 with Some filterFn => filterFn row | None => true end.

(** [row] satisfies every predicate registered in [filters]. *)
Definition passes (filters : FilterRegistry) (row : Row) : bool :=
  forallb (entry_passes row) (map_to_list filters).

(** The filtered input of the sort. *)
Definition filteredRows (data : list Row) (filters : FilterRegistry) : list Row :=
  List.filter (passes filters) data.

Definition view_ordered (data : list Row) (filters : FilterRegistry)
    (sort : SortSpec) : Prop :=
  StronglySorted (ordered sort) (sortedFilteredData data filters sort).

(** Rows that are tied with one another come out in the order they had
    in the filtered input. *)
Definition view_stable (data : list Row) (filters : FilterRegistry)
    (sort : SortSpec) : Prop :=
  ∀ keep : Row -> bool,
    (∀ a b, a ∈ filteredRows data filters → b ∈ filteredRows data filters →
            keep a = true → keep b = true → tied sort a b) →
    List.filter keep (sortedFilteredData data filters sort)
    = List.filter keep (filteredRows data filters).

Definition is_undefined (sort : SortSpec) (row : Row) : bool :=
  bool_decide (field_value sort row = VUndefined).

(** [h'] still holds every array of [h0], unchanged. *)
Definition preserves (h0 h' : gmap nat (list Row)) : Prop :=
  ∀ l, l ∈ dom h0 → h' !! l = h0 !! l.

(** [n] calls of [handleSort field], each made from the render that
    follows the previous one. *)
Definition clicks (props : Props) (field : string) (n : nat) (st : GridState)
  : GridState :=
  Nat.iter n (fun s => (handleSort props s field).1) st.

(** [handleFilter field filterFn] and then [handleFilter field null]. *)
Definition set_then_clear (props : Props) (st : GridState) (field : string)
    (filterFn : Row -> bool) : GridState :=
  (handleFilter props (handleFilter props st field (Some filterFn)).1 field None).1.

(** ** Sample data *)

Definition row_of (ref : nat) (fields : list (string * Value)) : Row :=
  mkRow ref (list_to_map fields).

Definition by_v_asc : SortSpec := mkSort (Some "v") (Some "asc").

(** Rows [{v: 2}, {}, {v: 1}]. *)
Definition gap_rows : list Row :=
  [row_of 0 [("v", VNum 2)]; row_of 1 []; row_of 2 [("v", VNum 1)]].

Definition ref_in (refs : list nat) (row : Row) : bool :=
  bool_decide (row_ref row ∈ refs).

Definition by_name_asc : SortSpec := mkSort (Some "name") (Some "asc").

(** Rows [{id: 1, name: 'b'}, {id: 2, name: 'a'}]. *)
Definition name_rows : list Row :=
  [row_of 1 [("id", VNum 1); ("name", VStr "b")];
   row_of 2 [("id", VNum 2); ("name", VStr "a")]].

(** [v => row => row.name.startsWith(v)] at ['a']. *)
Definition name_starts_with_a (row : Row) : bool :=
  match row_get row (Some "name") with
  | VStr s => String.prefix "a" s
  | _ => false
  end.

Definition no_listeners : Props :=
  {| data := name_rows; defaultSort := None;
     onSort := false; onFilter := false; onRowSelect := false |}.

Definition all_listeners : Props :=
  {| data := name_rows; defaultSort := None;
     onSort := true; onFilter := true; onRowSelect := true |}.

(** ** The context: any sequence of handler calls *)

(** A call of one of the three handlers the provider hands to the
    slots ([onSort], [onFilter], [onRowSelect] of the context value). *)
Inductive Action : Type :=
| DoSort (field : string)
| DoFilter (field : string) (filterFn : option (Row -> bool))
| DoRowSelect (row : Row).

Definition dispatch (props : Props) (st : GridState) (a : Action)
  : GridState * list Call :=
  match a with
  | DoSort field => handleSort props st field
  | DoFilter field filterFn => handleFilter props st field filterFn
  | DoRowSelect row => handleRowSelect props st row
  end.

(** The calls of [actions] in turn, each from the render that follows
    the previous one; the listener calls are collected in order. *)
Fixpoint run (props : Props) (st : GridState) (actions : list Action)
  : GridState * list Call :=
  match actions with
  | [] => (st, [])
  | a :: rest =>
      let r := dispatch props st a in
      let r' := run props r.1 rest in
      (r'.1, r.2 ++ r'.2)
  end.

(** How often [actions] toggles [row]. *)
Fixpoint toggles (row : Row) (actions : list Action) : nat :=
  match actions with
  | [] => 0
  | DoRowSelect r :: rest =>
      if bool_decide (r = row) then S (toggles row rest) else toggles row rest
  | _ :: rest => toggles row rest
  end.

(** The fields [actions] sets or clears a filter on. *)
Fixpoint filtered_fields (actions : list Action) : gset string :=
  match actions with
  | [] => ∅
  | DoFilter field _ :: rest => {[ field ]} ∪ filtered_fields rest
  | _ :: rest => filtered_fields rest
  end.

(** ** The slots *)

Module Column.

(** Props of [DataGrid.Column]; [filter] makes a predicate (or a falsy
    value) out of the text of the input. *)
Record t : Type := mk {
  field : string;
  sortable : bool;
  filter : option (string -> option (Row -> bool));
}.

(** [handleFilterChange(e)], with [value] for [e.target.value]. *)
Definition handleFilterChange (props : Props) (col : t) (st : GridState)
    (value : string) : GridState * list Call :=
  match filter col with
  | Some factory =>
      let filterFn := factory value in
      handleFilter props st (field col) filterFn
  | None => (st, [])
  end.

(** The [onClick] of the header: [sortable ? () => onSort(field) : undefined]. *)
Definition onClick (props : Props) (col : t) (st : GridState)
  : GridState * list Call :=
  if sortable col then handleSort props st (field col) else (st, []).

(** What follows the label in the header:
    [sortable && (sort.field === field ? (sort.direction === 'asc' ? '↑' : '↓') : '')],
    with [None] for [false]. *)
Definition indicator (col : t) (sort : SortSpec) : option string :=
  if sortable col
  then Some (if bool_decide (sort_field sort = Some (field col))
             then (if bool_decide (sort_direction sort = Some "asc") then "↑" else "↓")
             else "")
  else None.

(** Whether the text input is rendered: [filter && <input ... />]. *)
Definition has_input (col : t) : bool :=
  match filter col with Some _ => true | None => false end.

End Column.

Module Body.

(** [data.map((row, index) => React.cloneElement(children(row), { key: index, row }))]:
    the key and the row given to each rendered element. *)
Definition render (view : list Row) : list (nat * Row) :=
  imap (fun index row => (index, row)) view.

End Body.

Module RowSlot.

(** [`data-grid-row ${selectedRows.has(row) ? 'selected' : ''}`] *)
Definition className (selectedRows : list Row) (row : Row) : string :=
  ("data-grid-row " ++ (if JsSet.has row selectedRows then "selected" else ""))%string.

(** The [onClick] of the row. *)
Definition onClick (props : Props) (st : GridState) (row : Row)
  : GridState * list Call :=
  handleRowSelect props st row.

End RowSlot.

(** ** The host's sort, as a parameter *)

Section HostSort.
Context {A : Type}.

(** [comparefn] is a consistent comparator on the elements of [l]: the
    sign of [comparefn a b] is the opposite of the sign of
    [comparefn b a], and "not after" is transitive. *)
Definition Consistent (comparefn : A -> A -> Z) (l : list A) : Prop :=
  (∀ a b, a ∈ l → b ∈ l →
      (comparefn a b < 0 ↔ comparefn b a > 0) ∧
      (comparefn a b = 0 ↔ comparefn b a = 0)) ∧
  (∀ a b d, a ∈ l → b ∈ l → d ∈ l →
      before comparefn a b → before comparefn b d → before comparefn a d).

(** What the language asks of [Array.prototype.sort]: the result is a
    rearrangement of the array, and for a consistent comparator it is
    ordered and stable.  For any other comparator the order is left to
    the implementation. *)
Definition Conforming (hostSort : (A -> A -> Z) -> list A -> list A) : Prop :=
  ∀ comparefn l,
    hostSort comparefn l ≡ₚ l ∧
    (Consistent comparefn l →
     StronglySorted (before comparefn) (hostSort comparefn l) ∧
     ∀ r, r ∈ l →
       List.filter (tie_class comparefn r) (hostSort comparefn l)
       = List.filter (tie_class comparefn r) l).

End HostSort.

(** [Array.prototype.sort] as V8 runs it on an array of fewer than 64
    elements: the run at the start of the array is found, and reversed
    when it is strictly descending, and the remaining elements are put
    in place one by one by binary insertion. *)
Module V8.
Section V8.
Context {A : Type}.

(** The part of [CountAndMakeRun] that follows the first two elements:
    how many elements of [rest] continue the run that ends in [prev]. *)
Fixpoint run_rest (comparefn : A -> A -> Z) (isDescending : bool)
    (prev : A) (rest : list A) : nat :=
  match rest with
  | [] => 0
  | cur :: rest' =>
      let order := comparefn cur prev in
      if (if isDescending then 0 <=? order else order <? 0) then 0%nat
      else S (run_rest comparefn isDescending cur rest')
  end.

(** [CountAndMakeRun]: the run at the start, made ascending, and the
    elements after it. *)
Definition CountAndMakeRun (comparefn : A -> A -> Z) (l : list A)
  : list A * list A :=
  match l with
  | x0 :: x1 :: rest =>
      let isDescending := comparefn x1 x0 <? 0 in
      let runLength := (2 + run_rest comparefn isDescending x1 rest)%nat in
      let run := take runLength l in
      (if isDescending then reverse run else run, drop runLength l)
  | _ => (l, [])
  end.

(** The binary search of [BinaryInsertionSort] for the place of [pivot]
    between [left] and [right]; [fuel] bounds the number of probes. *)
Fixpoint search (fuel : nat) (comparefn : A -> A -> Z) (pivot : A)
    (sorted : list A) (left right : nat) : nat :=
  match fuel with
  | O => left
  | S fuel' =>
      if (left <? right)%nat then
        let mid := (left + (right - left) / 2)%nat in
        match sorted !! mid with
        | Some element =>
            if comparefn pivot element <? 0
            then search fuel' comparefn pivot sorted left mid
            else search fuel' comparefn pivot sorted (mid + 1) right
        | None => left
        end
      else left
  end.

Definition binary_insert (comparefn : A -> A -> Z) (sorted : list A) (pivot : A)
  : list A :=
  let left := search (length sorted) comparefn pivot sorted 0 (length sorted) in
  take left sorted ++ pivot :: drop left sorted.

Definition BinaryInsertionSort (comparefn : A -> A -> Z) (run rest : list A)
  : list A :=
  foldl (binary_insert comparefn) run rest.

Definition Array_sort (comparefn : A -> A -> Z) (l : list A) : list A :=
  let '(run, rest) := CountAndMakeRun comparefn l in
  BinaryInsertionSort comparefn run rest.

End V8.
End V8.

(** The pipeline over the host's sort. *)
Definition sortedFilteredData_on (hostSort : (Row -> Row -> Z) -> list Row -> list Row)
    (data : list Row) (filters : FilterRegistry) (sort : SortSpec) : list Row :=
  let filteredData := foldl apply_filter data (map_to_list filters) in
  if truthy (sort_field sort)
  then hostSort (compare_rows sort) filteredData
  else filteredData.

(** Rows [{v: 4}, {v: 2}, {}, {v: 2}]. *)
Definition tie_rows : list Row :=
  [row_of 0 [("v", VNum 4)]; row_of 1 [("v", VNum 2)]; row_of 2 [];
   row_of 3 [("v", VNum 2)]].


(** [view_stable] for the pipeline over [hostSort]. *)
Definition view_stable_on (hostSort : (Row -> Row -> Z) -> list Row -> list Row)
    (data : list Row) (filters : FilterRegistry) (sort : SortSpec) : Prop :=
  ∀ keep : Row -> bool,
    (∀ a b, a ∈ filteredRows data filters → b ∈ filteredRows data filters →
            keep a = true → keep b = true → tied sort a b) →
    List.filter keep (sortedFilteredData_on hostSort data filters sort)
    = List.filter keep (filteredRows data filters).

(** ** Facts about the host sort *)

Section SortFacts.
Context {A : Type} (c : A -> A -> Z).
Local Abbreviation before := (before c).
Local Abbreviation tie_class := (tie_class c).

Lemma sort_insert_perm x l : sort_insert c x l ≡ₚ x :: l.
Proof.
  induction l as [|y l IH]; simpl; [done|].
  destruct (c x y <=? 0); [done|].
  rewrite IH. apply Permutation_swap.
Qed.

Lemma Array_sort_perm l : Array_sort c l ≡ₚ l.
Proof.
  induction l as [|x l IH]; simpl; [done|].
  by rewrite sort_insert_perm, IH.
Qed.

Lemma elem_of_Array_sort x l : x ∈ Array_sort c l ↔ x ∈ l.
Proof. by rewrite Array_sort_perm. Qed.

Lemma length_Array_sort l : length (Array_sort c l) = length l.
Proof. by rewrite Array_sort_perm. Qed.

(** Rows that the comparator never puts after one another keep their
    relative order, whatever the comparator does elsewhere. *)
Lemma sort_insert_filter (P : A -> bool) x l :
  (∀ y, y ∈ l → P x = true → P y = true → before x y) →
  List.filter P (sort_insert c x l) = List.filter P (x :: l).
Proof.
  induction l as [|y l IH]; intros Hxy; [done|].
  simpl. destruct (c x y <=? 0) eqn:Hc; [done|].
  simpl. rewrite IH by (intros z Hz; apply Hxy; by right).
  simpl. destruct (P x) eqn:Px; [|done].
  destruct (P y) eqn:Py; [|done].
  exfalso. apply Z.leb_gt in Hc.
  specialize (Hxy y (list_elem_of_here _ _) eq_refl Py). unfold before in Hxy. lia.
Qed.

Lemma Array_sort_stable (P : A -> bool) l :
  (∀ x y, x ∈ l → y ∈ l → P x = true → P y = true → before x y) →
  List.filter P (Array_sort c l) = List.filter P l.
Proof.
  induction l as [|x l IH]; intros H; [done|].
  simpl. rewrite sort_insert_filter.
  - simpl. rewrite IH; [done|].
    intros a b Ha Hb. apply H; by right.
  - intros y Hy. apply H; [by left|]. right. by apply elem_of_Array_sort.
Qed.

(** With a comparator that is antisymmetric, and transitive on the
    elements at hand, the result is ordered. *)
Lemma sort_insert_sorted (D : A -> Prop) x l :
  (∀ a b, c a b > 0 → before b a) →
  (∀ a b d, D a → D b → D d → before a b → before b d → before a d) →
  D x → Forall D l →
  StronglySorted before l → StronglySorted before (sort_insert c x l).
Proof.
  intros Hanti Htrans Dx.
  induction l as [|y l IH]; intros HD Hs; simpl.
  - repeat constructor.
  - apply Forall_cons in HD as [Dy HD].
    apply StronglySorted_inv in Hs as [Hs Hy].
    destruct (c x y <=? 0) eqn:Hc.
    + apply Z.leb_le in Hc. constructor; [by constructor|].
      constructor; [done|].
      rewrite Forall_forall in Hy, HD |- *. intros z Hz.
      apply (Htrans x y z); auto.
    + apply Z.leb_gt in Hc. constructor; [by apply IH|].
      rewrite sort_insert_perm. constructor; [|done].
      apply Hanti. lia.
Qed.

Lemma Array_sort_sorted (D : A -> Prop) l :
  (∀ a b, c a b > 0 → before b a) →
  (∀ a b d, D a → D b → D d → before a b → before b d → before a d) →
  Forall D l → StronglySorted before (Array_sort c l).
Proof.
  intros Hanti Htrans. induction l as [|x l IH]; intros HD; simpl.
  - constructor.
  - apply Forall_cons in HD as [Dx HD].
    apply (sort_insert_sorted D); auto.
    by rewrite Array_sort_perm.
Qed.

(** An ordered list is determined by its elements and by the order
    inside each tie class. *)
Lemma sorted_stable_unique l1 l2 :
  (∀ a, before a a) →
  l1 ≡ₚ l2 →
  StronglySorted before l1 → StronglySorted before l2 →
  (∀ r, r ∈ l1 → List.filter (tie_class r) l1 = List.filter (tie_class r) l2) →
  l1 = l2.
Proof.
  intros Hrefl. revert l2.
  induction l1 as [|a l1 IH]; intros l2 Hp H1 H2 Hf.
  - by apply Permutation_nil_l in Hp.
  - destruct l2 as [|b l2]; [by apply Permutation_nil_r in Hp|].
    apply StronglySorted_inv in H1 as [H1 Ha].
    apply StronglySorted_inv in H2 as [H2 Hb].
    assert (Hab : tie_class a b = true).
    { unfold tie_class. apply andb_true_iff; split; apply Z.leb_le.
      - assert (b ∈ a :: l1) as Hin by (rewrite Hp; left).
        apply elem_of_cons in Hin as [->|Hin]; [apply Hrefl|].
        rewrite Forall_forall in Ha. by apply Ha.
      - assert (a ∈ b :: l2) as Hin by (rewrite <- Hp; left).
        apply elem_of_cons in Hin as [->|Hin]; [apply Hrefl|].
        rewrite Forall_forall in Hb. by apply Hb. }
    assert (Haa : tie_class a a = true).
    { unfold tie_class. apply andb_true_iff; split; apply Z.leb_le, Hrefl. }
    pose proof (Hf a (list_elem_of_here _ _)) as Hfa.
    simpl in Hfa. rewrite Haa, Hab in Hfa.
    injection Hfa as -> _.
    f_equal. apply IH; auto.
    + by apply Permutation_cons_inv in Hp.
    + intros r Hr. specialize (Hf r (list_elem_of_further _ _ _ Hr)).
      simpl in Hf. destruct (tie_class r b); [by injection Hf|done].
Qed.

(** Hence, for a comparator that is consistent on [l], every ordered
    arrangement of [l] that keeps each tie class in input order is the
    one [Array_sort] returns. *)
Lemma Array_sort_unique l l' :
  (∀ a, before a a) →
  (∀ a b, c a b > 0 → before b a) →
  (∀ a b d, a ∈ l → b ∈ l → d ∈ l → before a b → before b d → before a d) →
  l' ≡ₚ l →
  StronglySorted before l' →
  (∀ r, r ∈ l → List.filter (tie_class r) l' = List.filter (tie_class r) l) →
  l' = Array_sort c l.
Proof.
  intros Hrefl Hanti Htrans Hp Hs Hf.
  apply sorted_stable_unique; auto.
  - by rewrite Array_sort_perm.
  - apply (Array_sort_sorted (fun a => a ∈ l)); auto. by apply Forall_forall.
  - intros r Hr. rewrite Hp in Hr. rewrite (Hf r Hr).
    symmetry. apply Array_sort_stable.
    intros x y Hx Hy [Hrx Hxr]%andb_true_iff [Hry Hyr]%andb_true_iff.
    apply Z.leb_le in Hxr, Hry. by apply (Htrans x r y).
Qed.

End SortFacts.

(** ** Facts about the relational operators *)

Lemma String_ltb_asym s t : String.ltb s t = true → String.ltb t s = false.
Proof.
  unfold String.ltb. rewrite (String.compare_antisym s t).
  by destruct (String.compare t s).
Qed.

Lemma js_lt_asym x y : js_lt x y = true → js_lt y x = false.
Proof.
  destruct x, y; simpl; try done;
    repeat match goal with
      | |- context [StringToNumber ?s] => destruct (StringToNumber s)
      | b : bool |- _ => destruct b
      end; try done; try (intros ?%Z.ltb_lt; apply Z.ltb_ge; lia).
  apply String_ltb_asym.
Qed.

Lemma js_lt_irrefl x : js_lt x x = false.
Proof. destruct (js_lt x x) eqn:H; [|done]. by rewrite (js_lt_asym _ _ H) in H. Qed.

Lemma js_lt_undefined_l x : js_lt VUndefined x = false.
Proof. by destruct x. Qed.

Lemma js_lt_undefined_r x : js_lt x VUndefined = false.
Proof. destruct x; simpl; try done. by destruct (StringToNumber s). Qed.

(** ** Facts about the comparator *)

Lemma compare_rows_before sort a b :
  before (compare_rows sort) a b ↔ ordered sort a b.
Proof.
  unfold before, compare_rows, ordered, field_value, js_gt.
  destruct (js_lt (row_get b _) (row_get a _)) eqn:Hgt;
    destruct (js_lt (row_get a _) (row_get b _)) eqn:Hlt;
    try (by rewrite (js_lt_asym _ _ Hgt) in Hlt);
    destruct (decide (sort_direction sort = Some "asc")); split; (done || lia).
Qed.

Lemma compare_rows_antisym sort a b :
  compare_rows sort a b > 0 → before (compare_rows sort) b a.
Proof.
  unfold before, compare_rows, js_gt.
  destruct (js_lt (row_get b _) (row_get a _)) eqn:Hgt;
    destruct (js_lt (row_get a _) (row_get b _)) eqn:Hlt;
    try (by rewrite (js_lt_asym _ _ Hgt) in Hlt);
    destruct (decide (sort_direction sort = Some "asc")); lia.
Qed.

Lemma compare_rows_tied sort a b :
  compare_rows sort a b = 0 ↔ tied sort a b.
Proof.
  unfold compare_rows, tied, field_value.
  destruct (js_gt (row_get a _) (row_get b _));
    destruct (js_lt (row_get a _) (row_get b _));
    destruct (decide (sort_direction sort = Some "asc"));
    split; try lia; try done; intros [? ?]; done.
Qed.

Lemma tied_before sort a b : tied sort a b → before (compare_rows sort) a b.
Proof. intros H%compare_rows_tied. unfold before. lia. Qed.

Lemma comparableb_spec vs : comparableb vs = true ↔ Comparable vs.
Proof.
  unfold comparableb, Comparable. split.
  - intros H x y z Hx%list_elem_of_In Hy%list_elem_of_In Hz%list_elem_of_In.
    rewrite forallb_forall in H. specialize (H x Hx).
    rewrite forallb_forall in H. specialize (H y Hy).
    rewrite forallb_forall in H. specialize (H z Hz).
    intros Hxy Hyz. rewrite Hxy, Hyz in H. simpl in H. by destruct (js_gt x z).
  - intros H. apply forallb_forall. intros x Hx%list_elem_of_In.
    apply forallb_forall. intros y Hy%list_elem_of_In.
    apply forallb_forall. intros z Hz%list_elem_of_In.
    specialize (H x y z Hx Hy Hz).
    destruct (js_gt x y), (js_gt y z); simpl; try done.
    by rewrite H.
Qed.

Lemma Comparable_before sort rows :
  Comparable (map (field_value sort) rows) →
  ∀ a b d, a ∈ rows → b ∈ rows → d ∈ rows →
    before (compare_rows sort) a b → before (compare_rows sort) b d →
    before (compare_rows sort) a d.
Proof.
  intros HC a b d Ha Hb Hd. rewrite !compare_rows_before. unfold ordered.
  pose proof (list_elem_of_fmap_2 (field_value sort) _ _ Ha) as Ha'.
  pose proof (list_elem_of_fmap_2 (field_value sort) _ _ Hb) as Hb'.
  pose proof (list_elem_of_fmap_2 (field_value sort) _ _ Hd) as Hd'.
  destruct (decide (sort_direction sort = Some "asc")).
  - apply HC; auto.
  - unfold js_gt in HC. intros H1 H2. apply (HC _ _ _ Hd' Hb' Ha'); auto.
Qed.

(** ** Facts about the filter loop *)

Lemma filter_filter_andb {A} (f g : A -> bool) l :
  List.filter g (List.filter f l) = List.filter (fun x => f x && g x) l.
Proof.
  induction l as [|x l IH]; [done|]. simpl.
  destruct (f x); simpl; [destruct (g x)|]; by rewrite IH.
Qed.

Lemma filter_true {A} (l : list A) : List.filter (fun _ => true) l = l.
Proof. induction l; simpl; congruence. Qed.

Lemma filter_submseteq {A} (f : A -> bool) l : List.filter f l ⊆+ l.
Proof.
  induction l as [|x l IH]; simpl; [done|].
  destruct (f x); by constructor.
Qed.

Lemma elem_of_filter {A} (f : A -> bool) l x :
  x ∈ List.filter f l ↔ x ∈ l ∧ f x = true.
Proof. by rewrite !list_elem_of_In, filter_In. Qed.

Lemma foldl_apply_filter entries rows :
  foldl apply_filter rows entries
  = List.filter (fun row => forallb (entry_passes row) entries) rows.
Proof.
  revert rows. induction entries as [|e entries IH]; intros rows; simpl.
  - by rewrite filter_true.
  - rewrite IH. unfold apply_filter, entry_passes at 2.
    destruct (e.2) as [filterFn|]; [|done].
    apply filter_filter_andb.
Qed.

(** The predicates may be applied in any order. *)
Lemma apply_filter_any_order entries entries' rows :
  entries ≡ₚ entries' →
  foldl apply_filter rows entries = foldl apply_filter rows entries'.
Proof.
  intros Hp. rewrite !foldl_apply_filter. apply List.filter_ext. intros row.
  apply eq_true_iff_eq. rewrite !forallb_forall.
  split; intros H e He; apply H; apply list_elem_of_In;
    apply list_elem_of_In in He; first [by rewrite Hp|by rewrite <- Hp].
Qed.

Lemma passes_spec filters row :
  passes filters row = true ↔
  ∀ field filterFn, filters !! field = Some (Some filterFn) → filterFn row = true.
Proof.
  unfold passes. rewrite forallb_forall. split.
  - intros H field filterFn Hl.
    apply (H (field, Some filterFn)).
    by apply list_elem_of_In, elem_of_map_to_list.
  - intros H [field [filterFn|]] Hin; [|done].
    apply list_elem_of_In, elem_of_map_to_list in Hin. by apply (H field).
Qed.

Lemma sortedFilteredData_eq data filters sort :
  sortedFilteredData data filters sort
  = if truthy (sort_field sort)
    then Array_sort (compare_rows sort) (filteredRows data filters)
    else filteredRows data filters.
Proof. unfold sortedFilteredData. by rewrite foldl_apply_filter. Qed.

Lemma sortedFilteredData_perm data filters sort :
  sortedFilteredData data filters sort ≡ₚ filteredRows data filters.
Proof.
  rewrite sortedFilteredData_eq.
  destruct (truthy _); [apply Array_sort_perm|done].
Qed.

(** C1.  Whatever the source rows, the registry and the sort, the
    derived view holds exactly the source rows that satisfy every
    registered non-null predicate, each as often as the source has it:
    it is a rearrangement of the source filtered by [passes], hence a
    sub-multiset of the source, and [passes] holds of a row exactly when
    every predicate in the registry returns true on it. *)
Theorem derived_view_is_filtered_source data filters sort :
  (∀ row, passes filters row = true ↔
     ∀ field filterFn, filters !! field = Some (Some filterFn) → filterFn row = true) ∧
  sortedFilteredData data filters sort ≡ₚ List.filter (passes filters) data ∧
  sortedFilteredData data filters sort ⊆+ data.
Proof.
  split; [intros row; apply passes_spec|]. split.
  - apply sortedFilteredData_perm.
  - rewrite sortedFilteredData_perm. apply filter_submseteq.
Qed.

Lemma derived_view_is_filtered_source_witness :
  <["name" := Some name_starts_with_a]> (∅ : FilterRegistry) !! "name"
    = Some (Some name_starts_with_a) ∧
  ∀ row, passes (<["name" := Some name_starts_with_a]> ∅) row = true →
         name_starts_with_a row = true.
Proof.
  assert (Hl : <["name" := Some name_starts_with_a]> (∅ : FilterRegistry) !! "name"
               = Some (Some name_starts_with_a)) by reflexivity.
  split; [exact Hl|].
  intros row Hp.
  exact (proj1 (proj1 (derived_view_is_filtered_source
                         name_rows (<["name" := Some name_starts_with_a]> ∅)
                         by_name_asc) row) Hp "name" name_starts_with_a Hl).
Defined.

(** ** Ordering and stability *)

Lemma StronglySorted_iff {A} (R R' : A -> A -> Prop) l :
  (∀ a b, R a b ↔ R' a b) → StronglySorted R l → StronglySorted R' l.
Proof.
  intros HR. induction 1 as [|a l Hs IH Hf]; constructor; [done|].
  eapply Forall_impl; [exact Hf|]. intros b. apply HR.
Qed.

Lemma view_stable_holds data filters sort : view_stable data filters sort.
Proof.
  intros keep Hk. rewrite sortedFilteredData_eq.
  destruct (truthy _); [|done].
  apply Array_sort_stable. intros a b Ha Hb Ka Kb.
  by apply tied_before, Hk.
Qed.

Lemma view_ordered_holds data filters sort :
  truthy (sort_field sort) = true →
  Comparable (map (field_value sort) (filteredRows data filters)) →
  view_ordered data filters sort.
Proof.
  intros Ht HC. unfold view_ordered. rewrite sortedFilteredData_eq, Ht.
  apply (StronglySorted_iff (before (compare_rows sort))).
  { intros a b. apply compare_rows_before. }
  apply (Array_sort_sorted _ (fun r => r ∈ filteredRows data filters)).
  - apply compare_rows_antisym.
  - by apply Comparable_before.
  - by apply Forall_forall.
Qed.

(** C2, amended.  For a sort with a non-empty field, when the sort
    values of the filtered rows are mutually comparable, the derived
    view is ordered by those values in the direction of the sort
    (ascending for ['asc'], descending otherwise), and rows whose values
    are neither greater nor less than one another keep the order they
    had in the filtered input. *)
Theorem comparable_view_ordered_and_stable data filters sort :
  truthy (sort_field sort) = true →
  Comparable (map (field_value sort) (filteredRows data filters)) →
  view_ordered data filters sort ∧ view_stable data filters sort.
Proof.
  intros Ht HC. split; [by apply view_ordered_holds|apply view_stable_holds].
Qed.

Lemma Ascii_compare_refl x : Ascii.compare x x = Eq.
Proof. apply N.compare_refl. Qed.

Lemma String_compare_le_trans a b c :
  String.compare a b ≠ Gt → String.compare b c ≠ Gt → String.compare a c ≠ Gt.
Proof.
  revert b c. induction a as [|x a IH]; intros [|y b] [|z c]; simpl; try done.
  destruct (Ascii.compare x y) eqn:Hxy; [| |done];
    destruct (Ascii.compare y z) eqn:Hyz; try done.
  - apply Ascii.compare_eq_iff in Hxy as ->. rewrite Hyz. apply IH.
  - apply Ascii.compare_eq_iff in Hxy as ->. by rewrite Hyz.
  - apply Ascii.compare_eq_iff in Hyz as <-. by rewrite Hxy.
  - unfold Ascii.compare in *. rewrite N.compare_lt_iff in Hxy, Hyz.
    assert (N_of_ascii x < N_of_ascii z)%N as H by lia.
    apply N.compare_lt_iff in H. by rewrite H.
Qed.

(** Numbers other than NaN are mutually comparable, and so are
    strings. *)
Lemma Comparable_numbers vs :
  Forall (fun v => ∃ z, v = VNum z) vs → Comparable vs.
Proof.
  rewrite Forall_forall. intros H x y z Hx Hy Hz.
  destruct (H x Hx) as [a ->], (H y Hy) as [b ->], (H z Hz) as [d ->].
  unfold js_gt; simpl. rewrite !Z.ltb_ge. lia.
Qed.

Lemma Comparable_strings vs :
  Forall (fun v => ∃ s, v = VStr s) vs → Comparable vs.
Proof.
  rewrite Forall_forall. intros H x y z Hx Hy Hz.
  destruct (H x Hx) as [a ->], (H y Hy) as [b ->], (H z Hz) as [d ->].
  unfold js_gt; simpl. unfold String.ltb. intros H1 H2.
  pose proof (String_compare_le_trans a b d) as Ht.
  rewrite (String.compare_antisym b a) in H1.
  rewrite (String.compare_antisym d b) in H2.
  rewrite (String.compare_antisym d a).
  destruct (String.compare a b); try done;
    destruct (String.compare b d); try done;
    destruct (String.compare a d); try done; exfalso; by apply Ht.
Qed.

Lemma gap_rows_view : sortedFilteredData gap_rows ∅ by_v_asc = gap_rows.
Proof. vm_compute. reflexivity. Qed.

(** C2 as stated, without the comparability of the values, fails on
    [{v: 2}, {}, {v: 1}] sorted by [v] ascending: the row without [v]
    is tied with both others, the view is the input, and [2] stands
    before [1]. *)
Lemma gap_rows_not_ordered :
  ¬ (truthy (sort_field by_v_asc) = true →
     view_ordered gap_rows ∅ by_v_asc ∧ view_stable gap_rows ∅ by_v_asc).
Proof.
  intros H. destruct (H eq_refl) as [Hs _].
  unfold view_ordered in Hs. rewrite gap_rows_view in Hs.
  apply StronglySorted_inv in Hs as [_ Hf].
  apply Forall_cons in Hf as [_ Hf]. apply Forall_cons in Hf as [Hf _].
  vm_compute in Hf. discriminate.
Qed.

Lemma gap_rows_tied_01 a b :
  a ∈ gap_rows → b ∈ gap_rows →
  ref_in [0%nat; 1%nat] a = true → ref_in [0%nat; 1%nat] b = true → tied by_v_asc a b.
Proof.
  unfold gap_rows. rewrite !elem_of_cons, !elem_of_nil.
  intros [->|[->|[->|[]]]] [->|[->|[->|[]]]]; vm_compute; intros; (done || by split).
Qed.

Lemma gap_rows_tied_12 a b :
  a ∈ gap_rows → b ∈ gap_rows →
  ref_in [1%nat; 2%nat] a = true → ref_in [1%nat; 2%nat] b = true → tied by_v_asc a b.
Proof.
  unfold gap_rows. rewrite !elem_of_cons, !elem_of_nil.
  intros [->|[->|[->|[]]]] [->|[->|[->|[]]]]; vm_compute; intros; (done || by split).
Qed.

(** No arrangement of these rows is both ordered and faithful to the
    input order of tied rows: the failure does not depend on how the
    host sorts. *)
Lemma gap_rows_no_arrangement view :
  view ≡ₚ gap_rows →
  StronglySorted (ordered by_v_asc) view →
  (∀ keep : Row -> bool,
     (∀ a b, a ∈ gap_rows → b ∈ gap_rows →
             keep a = true → keep b = true → tied by_v_asc a b) →
     List.filter keep view = List.filter keep gap_rows) →
  False.
Proof.
  intros Hp Hs Hk.
  pose proof (Hk _ gap_rows_tied_01) as H01.
  pose proof (Hk _ gap_rows_tied_12) as H12.
  symmetry in Hp. apply permutations_Permutation in Hp.
  vm_compute in Hp.
  repeat (apply elem_of_cons in Hp as [->|Hp]); [..|by apply elem_of_nil in Hp];
    try (vm_compute in H01; discriminate);
    try (vm_compute in H12; discriminate);
    repeat match goal with
      | H : StronglySorted _ (_ :: _) |- _ =>
          apply StronglySorted_inv in H as [? ?]
      | H : Forall _ (_ :: _) |- _ => apply Forall_cons in H as [? ?]
      | H : ordered _ _ _ |- _ => vm_compute in H; try discriminate; clear H
      end.
Qed.

(** X8.  With comparable sort values the view is determined by the
    filtered rows alone: any arrangement of them that is ordered for the
    sort and keeps every class of tied rows in filtered order is the
    view, whichever stable sort the host runs. *)
Lemma host_sort_determined data filters sort view :
  Comparable (map (field_value sort) (filteredRows data filters)) →
  truthy (sort_field sort) = true →
  view ≡ₚ filteredRows data filters →
  StronglySorted (ordered sort) view →
  (∀ r, r ∈ filteredRows data filters →
        List.filter (tie_class (compare_rows sort) r) view
        = List.filter (tie_class (compare_rows sort) r) (filteredRows data filters)) →
  view = sortedFilteredData data filters sort.
Proof.
  intros HC Ht Hp Hs Hf. rewrite sortedFilteredData_eq, Ht.
  apply Array_sort_unique; auto.
  - intros a. apply compare_rows_before. unfold ordered, js_gt.
    destruct (decide _); apply js_lt_irrefl.
  - apply compare_rows_antisym.
  - by apply Comparable_before.
  - eapply StronglySorted_iff; [|exact Hs].
    intros a b. symmetry. apply compare_rows_before.
Qed.

Lemma comparable_view_witness :
  truthy (sort_field by_name_asc) = true ∧
  Comparable (map (field_value by_name_asc) (filteredRows name_rows ∅)) ∧
  view_ordered name_rows ∅ by_name_asc ∧ view_stable name_rows ∅ by_name_asc.
Proof.
  assert (Ht : truthy (sort_field by_name_asc) = true) by reflexivity.
  assert (HC : Comparable (map (field_value by_name_asc) (filteredRows name_rows ∅))).
  { apply comparableb_spec. vm_compute. reflexivity. }
  split; [exact Ht|]. split; [exact HC|].
  exact (comparable_view_ordered_and_stable name_rows ∅ by_name_asc Ht HC).
Defined.

Lemma undefined_tied sort a b :
  field_value sort a = VUndefined ∨ field_value sort b = VUndefined → tied sort a b.
Proof.
  unfold tied, js_gt.
  intros [->| ->]; split; (apply js_lt_undefined_l || apply js_lt_undefined_r).
Qed.

(** ** The handlers *)

Lemma handleSort_sort props st field :
  sort (handleSort props st field).1
  = mkSort (Some field)
      (Some (if bool_decide (sort st = mkSort (Some field) (Some "asc"))
             then "desc" else "asc")).
Proof.
  unfold handleSort; simpl. do 2 f_equal.
  destruct (sort st) as [f d]; simpl.
  repeat case_bool_decide; simpl; congruence.
Qed.

Lemma clicks_sort props st field n :
  sort (clicks props field (S n) st)
  = mkSort (Some field)
      (Some (if Bool.eqb (bool_decide (sort st = mkSort (Some field) (Some "asc")))
                         (Nat.even n)
             then "desc" else "asc")).
Proof.
  induction n as [|n IH].
  - change (clicks props field 1 st) with (handleSort props st field).1.
    rewrite handleSort_sort. by case_bool_decide.
  - change (clicks props field (S (S n)) st)
      with (handleSort props (clicks props field (S n) st) field).1.
    rewrite handleSort_sort, IH. rewrite Nat.even_succ, <- Nat.negb_even.
    destruct (bool_decide (sort st = _)), (Nat.even n); simpl;
      case_bool_decide; congruence.
Qed.

(** C3.  [handleSort field] sets the sort to [field] with direction
    ['desc'] when the current sort is exactly [field] ascending, and
    with ['asc'] in every other case.  Repeated calls with the same
    field therefore alternate: the first call gives ['desc'] or ['asc']
    as just said, and every later call gives the direction the previous
    call did not. *)
Theorem handleSort_alternates props st field :
  sort (handleSort props st field).1
  = mkSort (Some field)
      (Some (if bool_decide (sort st = mkSort (Some field) (Some "asc"))
             then "desc" else "asc")) ∧
  (∀ n, sort (clicks props field (S n) st)
        = mkSort (Some field)
            (Some (if Bool.eqb (bool_decide (sort st = mkSort (Some field) (Some "asc")))
                               (Nat.even n)
                   then "desc" else "asc"))) ∧
  (∀ n, sort (clicks props field (S (S n)) st)
        = mkSort (Some field)
            (Some (if bool_decide (sort_direction (sort (clicks props field (S n) st))
                                   = Some "asc")
                   then "desc" else "asc"))).
Proof.
  split; [apply handleSort_sort|]. split; [apply clicks_sort|].
  intros n.
  change (clicks props field (S (S n)) st)
    with (handleSort props (clicks props field (S n) st) field).1.
  rewrite handleSort_sort, clicks_sort. do 2 f_equal.
  destruct (Bool.eqb _ _); by repeat case_bool_decide.
Qed.

(** ** Facts about the host set *)

Section JsSetFacts.
Context {A : Type} `{EqDecision A}.
Implicit Types (s : list A) (x y : A).

Lemma has_true x s : JsSet.has x s = true ↔ x ∈ s.
Proof. unfold JsSet.has. apply bool_decide_eq_true. Qed.

Lemma has_add x y s :
  JsSet.has x (JsSet.add y s) = JsSet.has x s || bool_decide (x = y).
Proof.
  apply eq_true_iff_eq. rewrite orb_true_iff, !has_true, bool_decide_eq_true.
  unfold JsSet.add. destruct (JsSet.has y s) eqn:Hy.
  - apply has_true in Hy. split; [by left|]. by intros [?| ->].
  - rewrite elem_of_app, list_elem_of_singleton. tauto.
Qed.

Lemma has_delete x y s :
  JsSet.has x (JsSet.delete y s) = JsSet.has x s && negb (bool_decide (x = y)).
Proof.
  apply eq_true_iff_eq.
  rewrite andb_true_iff, negb_true_iff, !has_true, bool_decide_eq_false.
  unfold JsSet.delete. rewrite elem_of_filter, negb_true_iff, bool_decide_eq_false.
  tauto.
Qed.

Lemma delete_add_absent x s : x ∉ s → JsSet.delete x (JsSet.add x s) = s.
Proof.
  intros Hx. unfold JsSet.add, JsSet.has.
  rewrite bool_decide_eq_false_2 by done.
  unfold JsSet.delete. rewrite List.filter_app. simpl.
  rewrite bool_decide_eq_true_2 by done. simpl. rewrite app_nil_r.
  induction s as [|y s IH]; [done|]. simpl.
  apply not_elem_of_cons in Hx as [Hne Hx].
  rewrite bool_decide_eq_false_2 by done. simpl. by rewrite IH.
Qed.

Lemma NoDup_add x s : NoDup s → NoDup (JsSet.add x s).
Proof.
  intros Hs. unfold JsSet.add. destruct (JsSet.has x s) eqn:Hx; [done|].
  apply NoDup_app. split; [done|]. split; [|apply NoDup_singleton].
  intros y Hy ->%list_elem_of_singleton.
  apply has_true in Hy. congruence.
Qed.

Lemma NoDup_delete x s : NoDup s → NoDup (JsSet.delete x s).
Proof.
  intros Hs. unfold JsSet.delete. induction Hs as [|y s Hy Hs IH]; simpl.
  - constructor.
  - destruct (negb _); [|done]. constructor; [|done].
    rewrite elem_of_filter. tauto.
Qed.

End JsSetFacts.

Lemma handleRowSelect_has props st row x :
  JsSet.has x (selectedRows (handleRowSelect props st row).1)
  = if bool_decide (x = row) then negb (JsSet.has row (selectedRows st))
    else JsSet.has x (selectedRows st).
Proof.
  unfold handleRowSelect, JsSet.copy; simpl.
  destruct (JsSet.has row (selectedRows st)) eqn:Hr.
  - rewrite has_delete. case_bool_decide; subst; simpl; [by rewrite andb_false_r|].
    by rewrite andb_true_r.
  - rewrite has_add. case_bool_decide; subst; simpl; [by rewrite orb_true_r|].
    by rewrite orb_false_r.
Qed.

(** C4.  [handleRowSelect row] makes [row] a member of the selection
    when it was not and removes it when it was, and changes the
    membership of no other row; two calls in succession for the same
    row leave the selection with the members it had. *)
Theorem handleRowSelect_toggles props st row :
  let st1 := (handleRowSelect props st row).1 in
  let st2 := (handleRowSelect props st1 row).1 in
  (∀ x, JsSet.has x (selectedRows st1)
        = if bool_decide (x = row) then negb (JsSet.has row (selectedRows st))
          else JsSet.has x (selectedRows st)) ∧
  (∀ x, JsSet.has x (selectedRows st2) = JsSet.has x (selectedRows st)).
Proof.
  cbv zeta. split.
  - intros x. apply handleRowSelect_has.
  - intros x. rewrite !handleRowSelect_has.
    case_bool_decide; [subst|done].
    rewrite bool_decide_eq_true_2 by done. by rewrite negb_involutive.
Qed.

(** When [row] was not selected, the two calls give back the very same
    sequence of members; when it was, [row] moves to the end of the
    insertion order. *)
Lemma handleRowSelect_twice_absent props st row :
  JsSet.has row (selectedRows st) = false →
  selectedRows (handleRowSelect props (handleRowSelect props st row).1 row).1
  = selectedRows st.
Proof.
  intros Hr.
  assert (H1 : selectedRows (handleRowSelect props st row).1
               = JsSet.add row (selectedRows st)).
  { unfold handleRowSelect, JsSet.copy; simpl. by rewrite Hr. }
  assert (H2 : JsSet.has row (JsSet.add row (selectedRows st)) = true).
  { rewrite has_add, bool_decide_eq_true_2 by done. apply orb_true_r. }
  revert H1. generalize (handleRowSelect props st row).1. intros st1 H1.
  unfold handleRowSelect, JsSet.copy; simpl. rewrite H1, H2.
  apply delete_add_absent. intros Hin%has_true. congruence.
Qed.

Lemma handleRowSelect_NoDup props st row :
  NoDup (selectedRows st) → NoDup (selectedRows (handleRowSelect props st row).1).
Proof.
  intros Hs. unfold handleRowSelect, JsSet.copy; simpl.
  destruct (JsSet.has row _); [by apply NoDup_delete|by apply NoDup_add].
Qed.

(** ** Clearing a filter *)

Lemma passes_insert_None filters field row :
  passes (<[field := None]> filters) row = passes (delete field filters) row.
Proof.
  apply eq_true_iff_eq. rewrite !passes_spec. split.
  - intros H f p Hf. apply (H f). rewrite lookup_delete in Hf.
    rewrite lookup_insert. by case_decide.
  - intros H f p Hf. apply (H f). rewrite lookup_insert in Hf.
    rewrite lookup_delete. by case_decide.
Qed.

Lemma sortedFilteredData_ext data filters filters' sort :
  (∀ row, passes filters row = passes filters' row) →
  sortedFilteredData data filters sort = sortedFilteredData data filters' sort.
Proof.
  intros H. rewrite !sortedFilteredData_eq. unfold filteredRows.
  by rewrite (List.filter_ext _ _ H).
Qed.

(** C5.  Setting a predicate on [field] and then clearing it gives, for
    every source and sort, the derived view of the registry that has no
    entry for [field]. *)
Theorem clearing_filter_restores_view props st field filterFn :
  derivedView props (set_then_clear props st field filterFn)
  = sortedFilteredData (data props) (delete field (filters st)) (sort st).
Proof.
  unfold derivedView, set_then_clear, handleFilter; simpl.
  apply sortedFilteredData_ext. intros row.
  by rewrite passes_insert_None, delete_insert_eq.
Qed.

(** C10.  Clearing a filter does not shrink the key set of the
    registry: after [handleFilter field null] the registry still has the
    key [field], mapped to the null value, and every key it had; that
    registry is what [onFilter] receives; and the derived view is the
    one of the registry without [field], because the pipeline skips the
    null entry. *)
Theorem cleared_filter_keeps_its_key props st field :
  let out := handleFilter props st field None in
  filters out.1 !! field = Some None ∧
  dom (filters st) ⊆ dom (filters out.1) ∧
  out.2 = (if onFilter props then [CallOnFilter (filters out.1)] else []) ∧
  ∀ rows sort,
    sortedFilteredData rows (filters out.1) sort
    = sortedFilteredData rows (delete field (filters st)) sort.
Proof.
  simpl. split; [apply lookup_insert_eq|].
  split; [rewrite dom_insert; set_solver|].
  split; [done|].
  intros rows sort. apply sortedFilteredData_ext. intros row.
  apply passes_insert_None.
Qed.

(** C6.  Each handler calls its listener, when one is configured, once
    and with the state it has just set: [handleSort] calls [onSort] with
    the new sort, [handleFilter] calls [onFilter] with the new registry,
    [handleRowSelect] calls [onRowSelect] with an array whose elements
    are exactly the members of the new selection.  Without a listener
    no call is made. *)
Theorem handlers_notify_listeners props st :
  (∀ field,
     (handleSort props st field).2
     = if onSort props then [CallOnSort (sort (handleSort props st field).1)] else []) ∧
  (∀ field filterFn,
     (handleFilter props st field filterFn).2
     = if onFilter props
       then [CallOnFilter (filters (handleFilter props st field filterFn).1)]
       else []) ∧
  (∀ row,
     (handleRowSelect props st row).2
     = if onRowSelect props
       then [CallOnRowSelect
               (JsSet.to_array (selectedRows (handleRowSelect props st row).1))]
       else []) ∧
  (∀ (s : list Row) x, x ∈ JsSet.to_array s ↔ JsSet.has x s = true).
Proof.
  split; [done|]. split; [done|]. split; [done|].
  intros s x. unfold JsSet.to_array. by rewrite has_true.
Qed.

(** C8.  Selection is independent of filtering and sorting:
    [handleRowSelect] leaves the sort, the registry and hence the
    derived view as they are; [handleSort] and [handleFilter] leave the
    selection as it is; and a selected row that a new predicate rejects
    is absent from the derived view and still selected. *)
Theorem selection_independent_of_view props st :
  (∀ row,
     sort (handleRowSelect props st row).1 = sort st ∧
     filters (handleRowSelect props st row).1 = filters st ∧
     derivedView props (handleRowSelect props st row).1 = derivedView props st) ∧
  (∀ field, selectedRows (handleSort props st field).1 = selectedRows st) ∧
  (∀ field filterFn,
     selectedRows (handleFilter props st field filterFn).1 = selectedRows st) ∧
  (∀ field filterFn row,
     JsSet.has row (selectedRows st) = true →
     filterFn row = false →
     (row ∉ derivedView props (handleFilter props st field (Some filterFn)).1) ∧
     JsSet.has row (selectedRows (handleFilter props st field (Some filterFn)).1)
     = true).
Proof.
  split; [done|]. split; [done|]. split; [done|].
  intros field filterFn row Hsel Hrej. split; [|exact Hsel].
  unfold derivedView. rewrite sortedFilteredData_perm.
  unfold filteredRows. rewrite elem_of_filter, passes_spec.
  intros [_ Hp]. specialize (Hp field filterFn (lookup_insert_eq _ _ _)).
  congruence.
Qed.

Lemma selection_independent_of_view_witness :
  let row := row_of 1 [("id", VNum 1); ("name", VStr "b")] in
  let st := (handleRowSelect no_listeners (initialState no_listeners) row).1 in
  JsSet.has row (selectedRows st) = true ∧
  name_starts_with_a row = false ∧
  (row ∉ derivedView no_listeners
           (handleFilter no_listeners st "name" (Some name_starts_with_a)).1) ∧
  JsSet.has row (selectedRows
                   (handleFilter no_listeners st "name" (Some name_starts_with_a)).1)
  = true.
Proof.
  intros row st.
  assert (Hsel : JsSet.has row (selectedRows st) = true) by (vm_compute; reflexivity).
  assert (Hrej : name_starts_with_a row = false) by (vm_compute; reflexivity).
  split; [exact Hsel|]. split; [exact Hrej|].
  exact (proj2 (proj2 (proj2 (selection_independent_of_view no_listeners st)))
           "name" name_starts_with_a row Hsel Hrej).
Defined.

(** ** The pipeline on the store *)

Lemma preserves_dom h0 h l : preserves h0 h → l ∈ dom h0 → l ∈ dom h.
Proof.
  intros Hp Hl. apply elem_of_dom. rewrite (Hp l Hl). by apply elem_of_dom.
Qed.

Lemma preserves_fresh h0 h : preserves h0 h → fresh (dom h) ∉ dom h0.
Proof.
  intros Hp Hl. apply (is_fresh (dom h)). by apply (preserves_dom h0).
Qed.

Lemma preserves_insert h0 h l rows :
  preserves h0 h → l ∉ dom h0 → preserves h0 (<[l := rows]> h).
Proof.
  intros Hp Hl k Hk. rewrite lookup_insert_ne; [by apply Hp|].
  intros ->. contradiction.
Qed.

Lemma foldM_apply_filter_mem h0 entries :
  ∀ filteredData h rows,
    h !! filteredData = Some rows →
    filteredData ∉ dom h0 →
    preserves h0 h →
    ∃ out h',
      Mem.foldM apply_filter_mem filteredData entries h = Some (out, h') ∧
      h' !! out = Some (foldl apply_filter rows entries) ∧
      (out ∉ dom h0) ∧
      preserves h0 h'.
Proof.
  induction entries as [|e entries IH]; intros fd h rows Hfd Hnew Hp; simpl.
  - by exists fd, h.
  - unfold Mem.bind, apply_filter_mem, apply_filter.
    destruct (e.2) as [filterFn|]; [|by apply IH].
    unfold Array_filter_mem, Mem.bind, Mem.read, Mem.alloc. rewrite Hfd.
    apply IH.
    + apply lookup_insert_eq.
    + by apply preserves_fresh.
    + apply preserves_insert; [done|]. by apply preserves_fresh.
Qed.

(** C7.  Run on a store in which [data] is the caller's array, the
    pipeline returns an array other than [data] that holds the derived
    view, and leaves [data], like every array the store had, with the
    contents it had: the in-place sort works on a copy. *)
Theorem pipeline_leaves_source_untouched
    (h : gmap nat (list Row)) data rows filters sort :
  h !! data = Some rows →
  ∃ out h',
    sortedFilteredData_mem data filters sort h = Some (out, h') ∧
    h' !! out = Some (sortedFilteredData rows filters sort) ∧
    out ≠ data ∧
    h' !! data = Some rows ∧
    ∀ l, l ∈ dom h → h' !! l = h !! l.
Proof.
  intros Hdata.
  assert (Hin : data ∈ dom h) by (apply elem_of_dom; eauto).
  assert (Hp0 : preserves h h) by (by intros l _).
  unfold sortedFilteredData_mem, spread, Mem.bind at 1 2, Mem.read, Mem.alloc.
  rewrite Hdata.
  match goal with
  | |- context [Mem.foldM _ ?l _] =>
      destruct (foldM_apply_filter_mem h (map_to_list filters)
                  l (<[l := rows]> h) rows)
        as (out & h' & Hrun & Hout & Hnew & Hp)
  end.
  { apply lookup_insert_eq. }
  { apply is_fresh. }
  { apply preserves_insert; [done|apply is_fresh]. }
  unfold Mem.bind. rewrite Hrun. unfold sortedFilteredData.
  assert (Hne : out ≠ data) by (intros ->; contradiction).
  destruct (truthy (sort_field sort)).
  - unfold Array_sort_mem, Mem.bind, Mem.read, Mem.write, Mem.ret.
    rewrite Hout; cbv beta iota; rewrite Hout.
    eexists out, _. split; [reflexivity|].
    split; [apply lookup_insert_eq|]. split; [done|].
    assert (Hp' : preserves h (<[out := Array_sort (compare_rows sort)
                                          (foldl apply_filter rows (map_to_list filters))]> h'))
      by (by apply preserves_insert).
    split; [by rewrite (Hp' data Hin)|exact Hp'].
  - exists out, h'. split; [done|]. split; [done|]. split; [done|].
    split; [by rewrite (Hp data Hin)|exact Hp].
Qed.

Lemma pipeline_leaves_source_witness :
  ({[ 0%nat := name_rows ]} : gmap nat (list Row)) !! 0%nat = Some name_rows ∧
  ∃ out h',
    sortedFilteredData_mem 0%nat ∅ by_name_asc {[ 0%nat := name_rows ]} = Some (out, h') ∧
    h' !! out = Some (sortedFilteredData name_rows ∅ by_name_asc) ∧
    out ≠ 0%nat ∧
    h' !! 0%nat = Some name_rows ∧
    ∀ l, l ∈ dom ({[ 0%nat := name_rows ]} : gmap nat (list Row)) →
         h' !! l = ({[ 0%nat := name_rows ]} : gmap nat (list Row)) !! l.
Proof.
  assert (H : ({[ 0%nat := name_rows ]} : gmap nat (list Row)) !! 0%nat = Some name_rows)
    by reflexivity.
  split; [exact H|].
  exact (pipeline_leaves_source_untouched _ 0%nat name_rows ∅ by_name_asc H).
Defined.

(** ** More facts about the host sort *)

Section SortAlgebra.
Context {A : Type} (c : A -> A -> Z).

Lemma head_elem_of (l : list A) z : head l = Some z → z ∈ l.
Proof. destruct l; intros; simplify_eq/=. left. Qed.

Lemma sort_insert_head x l :
  (∀ y, head l = Some y → before c x y) → sort_insert c x l = x :: l.
Proof.
  destruct l as [|y l]; [done|]. intros H. simpl.
  specialize (H y eq_refl). unfold before in H.
  apply Z.leb_le in H. by rewrite H.
Qed.

(** A list that is already in order is left as it is. *)
Lemma Array_sort_ordered_id l :
  StronglySorted (before c) l → Array_sort c l = l.
Proof.
  induction 1 as [|x l Hs IH Hx]; [done|]. simpl. rewrite IH.
  apply sort_insert_head. intros y Hy.
  rewrite Forall_forall in Hx. by apply Hx, head_elem_of.
Qed.


Lemma sort_insert_filter_comm (P : A -> bool) (D : A -> Prop) x l :
  (∀ a b d, D a → D b → D d → before c a b → before c b d → before c a d) →
  D x → Forall D l → StronglySorted (before c) l →
  List.filter P (sort_insert c x l)
  = if P x then sort_insert c x (List.filter P l) else List.filter P l.
Proof.
  intros Htrans Dx. induction l as [|y l IH]; intros HD Hs.
  - simpl. by destruct (P x).
  - apply Forall_cons in HD as [Dy HD].
    apply StronglySorted_inv in Hs as [Hs Hy].
    simpl. destruct (c x y <=? 0) eqn:Hc.
    + simpl. destruct (P x) eqn:Px; [|done].
      symmetry. apply sort_insert_head. intros z Hz.
      apply Z.leb_le in Hc.
      assert (Hin : z ∈ List.filter P (y :: l)) by (by apply head_elem_of).
      apply list_elem_of_In, filter_In in Hin as [Hin%list_elem_of_In _].
      apply elem_of_cons in Hin as [->|Hin]; [done|].
      rewrite Forall_forall in Hy, HD.
      apply (Htrans x y z); auto.
    + simpl. rewrite IH by done.
      destruct (P y), (P x); simpl; try done. by rewrite Hc.
Qed.

(** For a comparator that is consistent on [l], filtering commutes with
    sorting. *)
Lemma Array_sort_filter_comm (P : A -> bool) l :
  (∀ a b, c a b > 0 → before c b a) →
  (∀ a b d, a ∈ l → b ∈ l → d ∈ l → before c a b → before c b d → before c a d) →
  List.filter P (Array_sort c l) = Array_sort c (List.filter P l).
Proof.
  intros Hanti. induction l as [|x l IH]; intros Htrans; [done|].
  assert (Htrans' : ∀ a b d, a ∈ l → b ∈ l → d ∈ l →
                             before c a b → before c b d → before c a d).
  { intros a b d Ha Hb Hd. apply Htrans; by right. }
  simpl. rewrite (sort_insert_filter_comm P (fun a => a ∈ x :: l)).
  - rewrite IH by done. by destruct (P x).
  - exact Htrans.
  - left.
  - apply Forall_forall. intros y Hy%elem_of_Array_sort. by right.
  - apply (Array_sort_sorted c (fun a => a ∈ l)); auto. by apply Forall_forall.
Qed.

End SortAlgebra.

Lemma StronglySorted_reverse {A} (R : A -> A -> Prop) l :
  StronglySorted R l → StronglySorted (flip R) (reverse l).
Proof.
  induction 1 as [|x l Hs IH Hx]; [constructor|].
  rewrite reverse_cons. apply StronglySorted_app_2; [|done|repeat constructor].
  intros a b Ha ->%list_elem_of_singleton.
  rewrite elem_of_reverse in Ha.
  rewrite Forall_forall in Hx. unfold flip. by apply Hx.
Qed.

Lemma filter_all {A} (f : A -> bool) l :
  (∀ x, x ∈ l → f x = true) → List.filter f l = l.
Proof.
  induction l as [|x l IH]; intros H; [done|]. simpl.
  rewrite (H x) by left. f_equal. apply IH. intros y Hy. apply H. by right.
Qed.

Lemma filter_none {A} (f : A -> bool) l :
  (∀ x, x ∈ l → f x = false) → List.filter f l = [].
Proof.
  induction l as [|x l IH]; intros H; [done|]. simpl.
  rewrite (H x) by left. apply IH. intros y Hy. apply H. by right.
Qed.

(** In a list without repetitions, a test that singles out [r] keeps
    just [r]. *)
Lemma filter_singleton {A} (f : A -> bool) l r :
  NoDup l → r ∈ l → (∀ x, x ∈ l → f x = true ↔ x = r) → List.filter f l = [r].
Proof.
  induction 1 as [|x l Hx Hl IH]; intros Hr Hf; [by apply elem_of_nil in Hr|].
  simpl. destruct (f x) eqn:Hfx.
  - assert (x = r) as Hxr by (apply Hf; [left|done]). subst x.
    f_equal. apply filter_none. intros y Hy.
    destruct (f y) eqn:Hfy; [|done].
    assert (y = r) as Hyr by (apply Hf; [by right|done]). subst y. contradiction.
  - apply IH.
    + apply elem_of_cons in Hr as [Hrx|Hr]; [|done]. subst x.
      assert (f r = true) by (apply Hf; [left|done]). congruence.
    + intros y Hy. apply Hf. by right.
Qed.

(** ** More about the view pipeline *)

Lemma filter_sublist {A} (f : A -> bool) l : List.filter f l `sublist_of` l.
Proof.
  induction l as [|x l IH]; simpl; [done|].
  destruct (f x); by constructor.
Qed.

Lemma StronglySorted_all {A} (R : A -> A -> Prop) l :
  (∀ a b, a ∈ l → b ∈ l → R a b) → StronglySorted R l.
Proof.
  induction l as [|x l IH]; intros H; constructor.
  - apply IH. intros a b Ha Hb. apply H; by right.
  - apply Forall_forall. intros y Hy. apply H; [left|by right].
Qed.

Lemma passes_empty row : passes ∅ row = true.
Proof. unfold passes. by rewrite map_to_list_empty. Qed.

Lemma filteredRows_empty data : filteredRows data ∅ = data.
Proof. apply filter_all. intros row _. apply passes_empty. Qed.

Lemma passes_insert_Some filters field filterFn row :
  passes (<[field := Some filterFn]> filters) row
  = passes (delete field filters) row && filterFn row.
Proof.
  apply eq_true_iff_eq. rewrite andb_true_iff, !passes_spec. split.
  - intros H. split.
    + intros f p Hf. apply (H f). rewrite lookup_delete in Hf.
      rewrite lookup_insert. by case_decide.
    + apply (H field). apply lookup_insert_eq.
  - intros [H Hp] f p Hf. rewrite lookup_insert in Hf. case_decide.
    + by simplify_eq.
    + apply (H f). rewrite lookup_delete. by case_decide.
Qed.

Lemma elem_of_view row data filters sort :
  row ∈ sortedFilteredData data filters sort ↔ row ∈ filteredRows data filters.
Proof. by rewrite sortedFilteredData_perm. Qed.

Lemma view_before_sorted data filters sort :
  truthy (sort_field sort) = true →
  Comparable (map (field_value sort) (filteredRows data filters)) →
  StronglySorted (before (compare_rows sort)) (sortedFilteredData data filters sort).
Proof.
  intros Ht HC. rewrite sortedFilteredData_eq, Ht.
  apply (Array_sort_sorted _ (fun r => r ∈ filteredRows data filters)).
  - apply compare_rows_antisym.
  - by apply Comparable_before.
  - by apply Forall_forall.
Qed.

(** X1.  Without a sort field (none, or the empty string) the view is
    the source with the rejected rows taken out: the rows that pass, in
    source order. *)
Theorem unsorted_view_keeps_source_order data filters sort :
  truthy (sort_field sort) = false →
  sortedFilteredData data filters sort = List.filter (passes filters) data ∧
  sortedFilteredData data filters sort `sublist_of` data.
Proof.
  intros Ht. rewrite sortedFilteredData_eq, Ht. split; [done|].
  apply filter_sublist.
Qed.

Lemma unsorted_view_keeps_source_order_witness :
  truthy (sort_field (mkSort (Some "") (Some "asc"))) = false ∧
  sortedFilteredData name_rows ∅ (mkSort (Some "") (Some "asc"))
  = List.filter (passes ∅) name_rows ∧
  sortedFilteredData name_rows ∅ (mkSort (Some "") (Some "asc")) `sublist_of` name_rows.
Proof.
  assert (Ht : truthy (sort_field (mkSort (Some "") (Some "asc"))) = false)
    by reflexivity.
  split; [exact Ht|].
  exact (unsorted_view_keeps_source_order name_rows ∅ _ Ht).
Defined.

(** X2.  On mount, when [defaultSort] is absent or has no sort field, the
    grid shows the source rows as they are. *)
Theorem mount_view_is_source props :
  truthy (sort_field (sort (initialState props))) = false →
  derivedView props (initialState props) = data props.
Proof.
  intros Ht. unfold derivedView. rewrite sortedFilteredData_eq, Ht.
  apply filteredRows_empty.
Qed.

Lemma mount_view_is_source_witness :
  truthy (sort_field (sort (initialState no_listeners))) = false ∧
  derivedView no_listeners (initialState no_listeners) = data no_listeners.
Proof.
  assert (Ht : truthy (sort_field (sort (initialState no_listeners))) = false)
    by reflexivity.
  split; [exact Ht|exact (mount_view_is_source no_listeners Ht)].
Defined.

(** X3.  Filtered rows that are already in the order the sort asks for
    are returned in that very order. *)
Theorem ordered_rows_stay_in_place data filters sort :
  StronglySorted (ordered sort) (filteredRows data filters) →
  sortedFilteredData data filters sort = filteredRows data filters.
Proof.
  intros Hs. rewrite sortedFilteredData_eq.
  destruct (truthy _); [|done].
  apply Array_sort_ordered_id.
  eapply StronglySorted_iff; [|exact Hs].
  intros a b. symmetry. apply compare_rows_before.
Qed.

Lemma ordered_rows_stay_in_place_witness :
  StronglySorted (ordered (mkSort (Some "id") (Some "asc"))) (filteredRows name_rows ∅) ∧
  sortedFilteredData name_rows ∅ (mkSort (Some "id") (Some "asc"))
  = filteredRows name_rows ∅.
Proof.
  assert (Hs : StronglySorted (ordered (mkSort (Some "id") (Some "asc")))
                 (filteredRows name_rows ∅)).
  { rewrite filteredRows_empty. repeat constructor. }
  split; [exact Hs|exact (ordered_rows_stay_in_place name_rows ∅ _ Hs)].
Defined.

(** X4.  Sorting by a field that no filtered row has leaves the rows in
    filtered order. *)
Theorem sort_by_absent_field_is_inert data filters sort :
  (∀ row, row ∈ filteredRows data filters → field_value sort row = VUndefined) →
  sortedFilteredData data filters sort = filteredRows data filters.
Proof.
  intros Hu. rewrite sortedFilteredData_eq.
  destruct (truthy _); [|done].
  apply Array_sort_ordered_id, StronglySorted_all.
  intros a b Ha _. apply tied_before, undefined_tied. left. by apply Hu.
Qed.

Lemma sort_by_absent_field_is_inert_witness :
  (∀ row, row ∈ filteredRows name_rows ∅ →
          field_value (mkSort (Some "price") (Some "asc")) row = VUndefined) ∧
  sortedFilteredData name_rows ∅ (mkSort (Some "price") (Some "asc"))
  = filteredRows name_rows ∅.
Proof.
  assert (Hu : ∀ row, row ∈ filteredRows name_rows ∅ →
                 field_value (mkSort (Some "price") (Some "asc")) row = VUndefined).
  { intros row. rewrite filteredRows_empty. unfold name_rows.
    rewrite !elem_of_cons, elem_of_nil. intros [->|[->|[]]]; reflexivity. }
  split; [exact Hu|exact (sort_by_absent_field_is_inert name_rows ∅ _ Hu)].
Defined.

(** X5.  With comparable sort values, running the pipeline on its own
    result gives that result again. *)
Theorem pipeline_is_idempotent data filters sort :
  (truthy (sort_field sort) = true →
   Comparable (map (field_value sort) (filteredRows data filters))) →
  sortedFilteredData (sortedFilteredData data filters sort) filters sort
  = sortedFilteredData data filters sort.
Proof.
  intros HC.
  assert (Hf : filteredRows (sortedFilteredData data filters sort) filters
               = sortedFilteredData data filters sort).
  { apply filter_all. intros row Hrow%elem_of_view.
    by apply elem_of_filter in Hrow as [_ ?]. }
  rewrite (sortedFilteredData_eq (sortedFilteredData _ _ _)), Hf.
  destruct (truthy (sort_field sort)) eqn:Ht; [|done].
  apply Array_sort_ordered_id, view_before_sorted; auto.
Qed.

Lemma pipeline_is_idempotent_witness :
  (truthy (sort_field by_name_asc) = true →
   Comparable (map (field_value by_name_asc) (filteredRows name_rows ∅))) ∧
  sortedFilteredData (sortedFilteredData name_rows ∅ by_name_asc) ∅ by_name_asc
  = sortedFilteredData name_rows ∅ by_name_asc.
Proof.
  assert (HC : truthy (sort_field by_name_asc) = true →
               Comparable (map (field_value by_name_asc) (filteredRows name_rows ∅))).
  { intros _. apply comparableb_spec. vm_compute. reflexivity. }
  split; [exact HC|exact (pipeline_is_idempotent name_rows ∅ by_name_asc HC)].
Defined.

Lemma filteredRows_insert_Some data filters field filterFn :
  filteredRows data (<[field := Some filterFn]> filters)
  = List.filter filterFn (filteredRows data (delete field filters)).
Proof.
  unfold filteredRows. rewrite filter_filter_andb.
  apply List.filter_ext. intros row. apply passes_insert_Some.
Qed.

(** X6.  With comparable sort values, putting a predicate on a field
    takes the rejected rows out of the view and leaves the others where
    they were: the new view is the view without a filter on that field,
    filtered by the predicate. *)
Theorem new_filter_only_removes_rows props st field filterFn :
  (truthy (sort_field (sort st)) = true →
   Comparable (map (field_value (sort st))
                 (filteredRows (data props) (delete field (filters st))))) →
  derivedView props (handleFilter props st field (Some filterFn)).1
  = List.filter filterFn
      (sortedFilteredData (data props) (delete field (filters st)) (sort st)).
Proof.
  intros HC. unfold derivedView, handleFilter; simpl.
  rewrite !sortedFilteredData_eq, filteredRows_insert_Some.
  destruct (truthy (sort_field (sort st))) eqn:Ht; [|done].
  symmetry. apply Array_sort_filter_comm.
  - apply compare_rows_antisym.
  - apply Comparable_before; auto.
Qed.

Lemma new_filter_only_removes_rows_witness :
  let st := (handleSort no_listeners (initialState no_listeners) "name").1 in
  (truthy (sort_field (sort st)) = true →
   Comparable (map (field_value (sort st))
                 (filteredRows (data no_listeners) (delete "name" (filters st))))) ∧
  derivedView no_listeners (handleFilter no_listeners st "name" (Some name_starts_with_a)).1
  = List.filter name_starts_with_a
      (sortedFilteredData (data no_listeners) (delete "name" (filters st)) (sort st)).
Proof.
  intros st.
  assert (HC : truthy (sort_field (sort st)) = true →
               Comparable (map (field_value (sort st))
                 (filteredRows (data no_listeners) (delete "name" (filters st))))).
  { intros _. apply comparableb_spec. vm_compute. reflexivity. }
  split; [exact HC|].
  exact (new_filter_only_removes_rows no_listeners st "name" name_starts_with_a HC).
Defined.

Lemma tie_class_tied sort a b :
  tie_class (compare_rows sort) a b = true ↔ tied sort a b.
Proof.
  unfold tie_class. rewrite andb_true_iff, !Z.leb_le.
  change (before (compare_rows sort) a b ∧ before (compare_rows sort) b a
          ↔ tied sort a b).
  rewrite !compare_rows_before. unfold ordered, tied, js_gt.
  destruct (decide _); tauto.
Qed.

Lemma tied_refl sort a : tied sort a a.
Proof. unfold tied, js_gt. split; apply js_lt_irrefl. Qed.

(** X7.  With comparable sort values, no repeated row and no two rows
    tied, the view in a descending direction is the ascending view
    reversed. *)
Theorem descending_view_is_ascending_reversed data filters field direction :
  truthy (Some field) = true →
  direction ≠ Some "asc" →
  Comparable (map (field_value (mkSort (Some field) (Some "asc")))
                (filteredRows data filters)) →
  NoDup (filteredRows data filters) →
  (∀ a b, a ∈ filteredRows data filters → b ∈ filteredRows data filters →
          tied (mkSort (Some field) (Some "asc")) a b → a = b) →
  sortedFilteredData data filters (mkSort (Some field) direction)
  = reverse (sortedFilteredData data filters (mkSort (Some field) (Some "asc"))).
Proof.
  intros Ht Hd HC Hnd Hties.
  set (asc := mkSort (Some field) (Some "asc")).
  set (desc := mkSort (Some field) direction).
  assert (Hperm : reverse (sortedFilteredData data filters asc)
                  ≡ₚ filteredRows data filters).
  { by rewrite reverse_Permutation, sortedFilteredData_perm. }
  symmetry. rewrite (sortedFilteredData_eq _ _ desc).
  change (truthy (sort_field desc)) with (truthy (Some field)). rewrite Ht.
  apply Array_sort_unique.
  - intros a. apply tied_before, tied_refl.
  - apply compare_rows_antisym.
  - by apply Comparable_before.
  - exact Hperm.
  - pose proof (view_before_sorted data filters asc Ht HC) as Hs.
    apply StronglySorted_reverse in Hs.
    eapply StronglySorted_iff; [|exact Hs].
    intros a b. unfold flip. rewrite !compare_rows_before.
    unfold ordered, field_value, js_gt; simpl.
    destruct (decide (Some "asc" = Some "asc")); [|done].
    by destruct (decide (direction = Some "asc")).
  - intros r Hr.
    assert (Hone : ∀ l, l ≡ₚ filteredRows data filters →
              List.filter (tie_class (compare_rows desc) r) l = [r]).
    { intros l Hl. apply filter_singleton.
      - by rewrite Hl.
      - by rewrite Hl.
      - intros x Hx. rewrite Hl in Hx. rewrite tie_class_tied. split.
        + intros Hx'. symmetry. by apply Hties.
        + intros ->. apply tied_refl. }
    by rewrite !Hone.
Qed.

Lemma name_rows_NoDup : NoDup name_rows.
Proof.
  unfold name_rows. repeat constructor.
  - rewrite list_elem_of_singleton. discriminate.
  - apply not_elem_of_nil.
Qed.

Lemma name_rows_untied a b :
  a ∈ filteredRows name_rows ∅ → b ∈ filteredRows name_rows ∅ →
  tied by_name_asc a b → a = b.
Proof.
  rewrite filteredRows_empty. unfold name_rows.
  rewrite !elem_of_cons, !elem_of_nil.
  intros [->|[->|[]]] [->|[->|[]]]; try done;
    vm_compute; intros [? ?]; discriminate.
Qed.

Lemma descending_view_is_ascending_reversed_witness :
  sortedFilteredData name_rows ∅ (mkSort (Some "name") (Some "desc"))
  = reverse (sortedFilteredData name_rows ∅ (mkSort (Some "name") (Some "asc"))).
Proof.
  apply descending_view_is_ascending_reversed.
  - reflexivity.
  - discriminate.
  - apply comparableb_spec. vm_compute. reflexivity.
  - rewrite filteredRows_empty. apply name_rows_NoDup.
  - apply name_rows_untied.
Defined.

(** X9.  The comparator is antisymmetric and takes the values -1, 0 and
    1; the descending comparator is the negation of the ascending one. *)
Theorem compare_rows_is_antisymmetric sort a b :
  compare_rows sort b a = - compare_rows sort a b ∧
  (compare_rows sort a b = -1 ∨ compare_rows sort a b = 0 ∨ compare_rows sort a b = 1) ∧
  compare_rows (mkSort (sort_field sort) (Some "desc")) a b
  = - compare_rows (mkSort (sort_field sort) (Some "asc")) a b.
Proof.
  unfold compare_rows, js_gt; simpl.
  destruct (js_lt (row_get b _) (row_get a _)) eqn:Hgt;
    destruct (js_lt (row_get a _) (row_get b _)) eqn:Hlt;
    try (by rewrite (js_lt_asym _ _ Hgt) in Hlt);
    destruct (decide (sort_direction sort = Some "asc"));
    repeat split; auto.
Qed.

(** X16.  The order in which the entries of the registry are visited
    does not matter: any enumeration of them gives the same view. *)
Theorem entry_order_is_irrelevant data filters sort entries :
  entries ≡ₚ map_to_list filters →
  (let filteredData := foldl apply_filter data entries in
   if truthy (sort_field sort)
   then Array_sort (compare_rows sort) filteredData
   else filteredData)
  = sortedFilteredData data filters sort.
Proof.
  intros Hp. unfold sortedFilteredData; cbv zeta.
  by rewrite (apply_filter_any_order _ _ data Hp).
Qed.

Lemma entry_order_is_irrelevant_witness :
  let filters : FilterRegistry :=
    <["name" := Some name_starts_with_a]> (<["id" := None]> ∅) in
  reverse (map_to_list filters) ≡ₚ map_to_list filters ∧
  (let filteredData := foldl apply_filter name_rows (reverse (map_to_list filters)) in
   if truthy (sort_field by_name_asc)
   then Array_sort (compare_rows by_name_asc) filteredData
   else filteredData)
  = sortedFilteredData name_rows filters by_name_asc.
Proof.
  intros filters.
  assert (Hp : reverse (map_to_list filters) ≡ₚ map_to_list filters)
    by apply reverse_Permutation.
  split; [exact Hp|].
  exact (entry_order_is_irrelevant name_rows filters by_name_asc _ Hp).
Defined.

Lemma host_sort_determined_witness :
  reverse name_rows = sortedFilteredData name_rows ∅ by_name_asc.
Proof.
  apply host_sort_determined.
  - apply comparableb_spec. vm_compute. reflexivity.
  - reflexivity.
  - rewrite filteredRows_empty. apply reverse_Permutation.
  - repeat constructor.
  - intros r. rewrite filteredRows_empty. unfold name_rows.
    rewrite !elem_of_cons, elem_of_nil. intros [->|[->|[]]]; reflexivity.
Defined.

(** ** More about the handlers *)

(** X10.  A call of [handleSort] only rearranges the view: the rows
    shown, and how often each is shown, stay the same. *)
Theorem handleSort_only_rearranges props st field :
  derivedView props (handleSort props st field).1 ≡ₚ derivedView props st ∧
  length (derivedView props (handleSort props st field).1)
  = length (derivedView props st).
Proof.
  assert (H : derivedView props (handleSort props st field).1
              ≡ₚ derivedView props st).
  { unfold derivedView. by rewrite !sortedFilteredData_perm. }
  split; [exact H|by rewrite H].
Qed.

(** X11.  Filters on two different fields can be set in either order:
    the registry holds the same predicate under every field and the
    view is the same.  Two calls for one field leave only what the
    second one set. *)
Theorem handleFilter_composes props st field1 fn1 field2 fn2 :
  (field1 ≠ field2 →
   let st12 := (handleFilter props (handleFilter props st field1 fn1).1 field2 fn2).1 in
   let st21 := (handleFilter props (handleFilter props st field2 fn2).1 field1 fn1).1 in
   (∀ field, filters st12 !! field = filters st21 !! field) ∧
   derivedView props st12 = derivedView props st21) ∧
  (let st12 := (handleFilter props (handleFilter props st field1 fn1).1 field1 fn2).1 in
   let st2 := (handleFilter props st field1 fn2).1 in
   (∀ field, filters st12 !! field = filters st2 !! field) ∧
   derivedView props st12 = derivedView props st2).
Proof.
  split.
  - intros Hne. cbv zeta. unfold derivedView, handleFilter; simpl.
    rewrite (insert_insert_ne (filters st) field2 field1) by done. done.
  - cbv zeta. unfold derivedView, handleFilter; simpl.
    by rewrite insert_insert_eq.
Qed.

Lemma handleFilter_composes_witness :
  "name" ≠ "id" ∧
  derivedView no_listeners
    (handleFilter no_listeners
       (handleFilter no_listeners (initialState no_listeners)
          "name" (Some name_starts_with_a)).1 "id" None).1
  = derivedView no_listeners
      (handleFilter no_listeners
         (handleFilter no_listeners (initialState no_listeners) "id" None).1
         "name" (Some name_starts_with_a)).1.
Proof.
  assert (Hne : "name" ≠ "id") by discriminate.
  split; [exact Hne|].
  exact (proj2 (proj1 (handleFilter_composes no_listeners (initialState no_listeners)
                         "name" (Some name_starts_with_a) "id" None) Hne)).
Defined.

(** ** Any sequence of handler calls *)

Lemma run_cons props st a rest :
  (run props st (a :: rest)).1 = (run props (dispatch props st a).1 rest).1.
Proof. done. Qed.

Lemma dispatch_NoDup props st a :
  NoDup (selectedRows st) → NoDup (selectedRows (dispatch props st a).1).
Proof.
  destruct a as [field|field fn|row]; [done|done|].
  exact (handleRowSelect_NoDup props st row).
Qed.

(** X12.  Whatever the handlers are called with, and in whatever order,
    the selection never holds a row twice; so the array handed to
    [onRowSelect] never repeats a row. *)
Theorem selection_never_repeats_a_row props actions :
  NoDup (selectedRows (run props (initialState props) actions).1) ∧
  ∀ rows, CallOnRowSelect rows ∈ (run props (initialState props) actions).2 →
          NoDup rows.
Proof.
  assert (Hgen : ∀ st, NoDup (selectedRows st) →
            NoDup (selectedRows (run props st actions).1) ∧
            ∀ rows, CallOnRowSelect rows ∈ (run props st actions).2 → NoDup rows).
  { induction actions as [|a rest IH]; intros st Hst.
    - split; [done|]. intros rows Hin. by apply elem_of_nil in Hin.
    - destruct (IH (dispatch props st a).1 (dispatch_NoDup props st a Hst))
        as [IH1 IH2].
      split; [exact IH1|]. intros rows Hin. simpl in Hin.
      apply elem_of_app in Hin as [Hin|Hin]; [|by apply IH2].
      destruct a as [field|field fn|row]; simpl in Hin.
      + destruct (onSort props);
          first [by apply list_elem_of_singleton in Hin|by apply elem_of_nil in Hin].
      + destruct (onFilter props);
          first [by apply list_elem_of_singleton in Hin|by apply elem_of_nil in Hin].
      + destruct (onRowSelect props); [|by apply elem_of_nil in Hin].
        apply list_elem_of_singleton in Hin. simplify_eq.
        apply (handleRowSelect_NoDup props st row Hst). }
  apply Hgen. constructor.
Qed.

(** X13.  The registry never loses a key: after any sequence of handler
    calls its keys are the keys it had and the fields a filter was set
    or cleared on. *)
Theorem registry_keys_only_grow props st actions :
  dom (filters (run props st actions).1)
  = dom (filters st) ∪ filtered_fields actions.
Proof.
  revert st. induction actions as [|a rest IH]; intros st.
  - simpl. by rewrite (right_id_L ∅ (∪)).
  - rewrite run_cons, IH. destruct a as [field|field fn|row]; simpl.
    + done.
    + rewrite dom_insert_L. by rewrite (comm_L (∪) {[field]}), (assoc_L (∪)).
    + done.
Qed.

(** X14.  After any sequence of handler calls a row is selected exactly
    when it was selected before and toggled an even number of times, or
    was not selected and toggled an odd number of times; sorting and
    filtering in between change nothing. *)
Theorem selection_is_toggle_parity props st actions row :
  JsSet.has row (selectedRows (run props st actions).1)
  = xorb (JsSet.has row (selectedRows st)) (Nat.odd (toggles row actions)).
Proof.
  revert st. induction actions as [|a rest IH]; intros st.
  - simpl. by rewrite xorb_false_r.
  - rewrite run_cons, IH. destruct a as [field|field fn|r]; cbn [dispatch toggles];
      try done.
    rewrite handleRowSelect_has.
    rewrite (bool_decide_ext (row = r) (r = row)) by done.
    case_bool_decide; [subst|done].
    rewrite Nat.odd_succ, <- Nat.negb_odd.
    by destruct (JsSet.has row (selectedRows st)), (Nat.odd (toggles row rest)).
Qed.

(** ** More about the pipeline on the store *)

Lemma sortedFilteredData_mem_run (h : gmap nat (list Row)) data rows filters sort :
  h !! data = Some rows →
  ∃ out h',
    sortedFilteredData_mem data filters sort h = Some (out, h') ∧
    h' !! out = Some (sortedFilteredData rows filters sort) ∧
    (out ∉ dom h) ∧
    preserves h h'.
Proof.
  intros Hdata.
  unfold sortedFilteredData_mem, spread, Mem.bind at 1 2, Mem.read, Mem.alloc.
  rewrite Hdata.
  match goal with
  | |- context [Mem.foldM _ ?l _] =>
      destruct (foldM_apply_filter_mem h (map_to_list filters)
                  l (<[l := rows]> h) rows)
        as (out & h' & Hrun & Hout & Hnew & Hp)
  end.
  { apply lookup_insert_eq. }
  { apply is_fresh. }
  { apply preserves_insert; [by intros l _|apply is_fresh]. }
  unfold Mem.bind. rewrite Hrun. unfold sortedFilteredData.
  destruct (truthy (sort_field sort)).
  - unfold Array_sort_mem, Mem.bind, Mem.read, Mem.write, Mem.ret.
    rewrite Hout; cbv beta iota; rewrite Hout.
    eexists out, _. split; [reflexivity|].
    split; [apply lookup_insert_eq|]. split; [done|].
    by apply preserves_insert.
  - by exists out, h'.
Qed.

(** X15.  Every run of the pipeline returns an array that did not exist
    before; a second run returns yet another array and leaves the result
    of the first one as it was. *)
Theorem recomputed_view_is_a_new_array
    (h : gmap nat (list Row)) data rows filters sort :
  h !! data = Some rows →
  ∃ out h' out2 h2,
    sortedFilteredData_mem data filters sort h = Some (out, h') ∧
    sortedFilteredData_mem data filters sort h' = Some (out2, h2) ∧
    (out ∉ dom h) ∧
    out2 ≠ out ∧
    h2 !! out = Some (sortedFilteredData rows filters sort) ∧
    h2 !! out2 = Some (sortedFilteredData rows filters sort).
Proof.
  intros Hdata.
  destruct (sortedFilteredData_mem_run h data rows filters sort Hdata)
    as (out & h' & Hrun & Hout & Hnew & Hp).
  assert (Hdata' : h' !! data = Some rows).
  { rewrite <- Hdata. apply Hp. apply elem_of_dom. eauto. }
  destruct (sortedFilteredData_mem_run h' data rows filters sort Hdata')
    as (out2 & h2 & Hrun2 & Hout2 & Hnew2 & Hp2).
  assert (Hin : out ∈ dom h') by (apply elem_of_dom; eauto).
  exists out, h', out2, h2. repeat split; auto.
  - intros ->. contradiction.
  - rewrite <- Hout. by apply Hp2.
Qed.

Lemma recomputed_view_is_a_new_array_witness :
  ({[ 0%nat := name_rows ]} : gmap nat (list Row)) !! 0%nat = Some name_rows ∧
  ∃ out h' out2 h2,
    sortedFilteredData_mem 0%nat ∅ by_name_asc {[ 0%nat := name_rows ]} = Some (out, h') ∧
    sortedFilteredData_mem 0%nat ∅ by_name_asc h' = Some (out2, h2) ∧
    (out ∉ dom ({[ 0%nat := name_rows ]} : gmap nat (list Row))) ∧
    out2 ≠ out ∧
    h2 !! out = Some (sortedFilteredData name_rows ∅ by_name_asc) ∧
    h2 !! out2 = Some (sortedFilteredData name_rows ∅ by_name_asc).
Proof.
  assert (H : ({[ 0%nat := name_rows ]} : gmap nat (list Row)) !! 0%nat = Some name_rows)
    by reflexivity.
  split; [exact H|].
  exact (recomputed_view_is_a_new_array _ 0%nat name_rows ∅ by_name_asc H).
Defined.

(** ** The slots *)

Lemma indicator_up col sort :
  Column.indicator col sort = Some "↑" →
  sort_field sort = Some (Column.field col) ∧ sort_direction sort = Some "asc".
Proof.
  unfold Column.indicator. destruct (Column.sortable col); [|done].
  repeat case_bool_decide; intros; by simplify_eq.
Qed.

Lemma indicator_down col sort :
  Column.indicator col sort = Some "↓" →
  sort_field sort = Some (Column.field col) ∧ sort_direction sort ≠ Some "asc".
Proof.
  unfold Column.indicator. destruct (Column.sortable col); [|done].
  repeat case_bool_decide; intros; by simplify_eq.
Qed.

Lemma truthy_nonempty field : field ≠ "" → truthy (Some field) = true.
Proof.
  intros Hne. simpl. apply negb_true_iff. by apply String.eqb_neq.
Qed.

(** X17.  After a click on a sortable column, that column shows an
    arrow and every sortable column for another field shows none. *)
Theorem click_moves_the_arrow props st col :
  Column.sortable col = true →
  let st' := (Column.onClick props col st).1 in
  (Column.indicator col (sort st') = Some "↑" ∨
   Column.indicator col (sort st') = Some "↓") ∧
  ∀ other, Column.sortable other = true →
           Column.field other ≠ Column.field col →
           Column.indicator other (sort st') = Some "".
Proof.
  intros Hs. cbv zeta. unfold Column.onClick. rewrite Hs.
  rewrite handleSort_sort. unfold Column.indicator. rewrite Hs. simpl. split.
  - rewrite bool_decide_eq_true_2 by done.
    destruct (bool_decide (sort st = _)); simpl; auto.
  - intros other -> Hne. rewrite bool_decide_eq_false_2; [done|].
    intros ?; simplify_eq.
Qed.

Lemma click_moves_the_arrow_witness :
  let name := Column.mk "name" true None in
  let id := Column.mk "id" true None in
  let st' := (Column.onClick no_listeners name (initialState no_listeners)).1 in
  Column.sortable name = true ∧
  (Column.indicator name (sort st') = Some "↑" ∨
   Column.indicator name (sort st') = Some "↓") ∧
  Column.indicator id (sort st') = Some "".
Proof.
  intros name id st'.
  assert (Hs : Column.sortable name = true) by reflexivity.
  assert (Hs' : Column.sortable id = true) by reflexivity.
  assert (Hne : Column.field id ≠ Column.field name) by discriminate.
  pose proof (click_moves_the_arrow no_listeners (initialState no_listeners) name Hs)
    as [H1 H2].
  split; [exact Hs|]. split; [exact H1|exact (H2 id Hs' Hne)].
Defined.

(** X18.  The arrow of a column tells the order of the view: with
    comparable values in that field, an up arrow stands over a view in
    which no row has a greater value than a later one, a down arrow over
    a view in which no row has a smaller value than a later one. *)
Theorem arrow_tells_the_order props st col :
  Column.field col ≠ "" →
  Comparable (map (fun row => row_get row (Some (Column.field col)))
                (filteredRows (data props) (filters st))) →
  (Column.indicator col (sort st) = Some "↑" →
   StronglySorted
     (fun a b => js_gt (row_get a (Some (Column.field col)))
                       (row_get b (Some (Column.field col))) = false)
     (derivedView props st)) ∧
  (Column.indicator col (sort st) = Some "↓" →
   StronglySorted
     (fun a b => js_lt (row_get a (Some (Column.field col)))
                       (row_get b (Some (Column.field col))) = false)
     (derivedView props st)).
Proof.
  intros Hne HC.
  assert (Hord : sort_field (sort st) = Some (Column.field col) →
                 StronglySorted (ordered (sort st)) (derivedView props st)).
  { intros Hf. apply view_ordered_holds.
    - rewrite Hf. by apply truthy_nonempty.
    - unfold field_value. by rewrite Hf. }
  split.
  - intros [Hf Hd]%indicator_up.
    eapply StronglySorted_iff; [|exact (Hord Hf)].
    intros a b. unfold ordered, field_value. rewrite Hf.
    by destruct (decide (sort_direction (sort st) = Some "asc")).
  - intros [Hf Hd]%indicator_down.
    eapply StronglySorted_iff; [|exact (Hord Hf)].
    intros a b. unfold ordered, field_value. rewrite Hf.
    by destruct (decide (sort_direction (sort st) = Some "asc")).
Qed.

Lemma arrow_tells_the_order_witness :
  let name := Column.mk "name" true None in
  let st := (Column.onClick no_listeners name (initialState no_listeners)).1 in
  Column.indicator name (sort st) = Some "↑" ∧
  StronglySorted
    (fun a b => js_gt (row_get a (Some "name")) (row_get b (Some "name")) = false)
    (derivedView no_listeners st).
Proof.
  intros name st.
  assert (Hne : Column.field name ≠ "") by discriminate.
  assert (HC : Comparable (map (fun row => row_get row (Some (Column.field name)))
                 (filteredRows (data no_listeners) (filters st)))).
  { apply comparableb_spec. vm_compute. reflexivity. }
  assert (Hup : Column.indicator name (sort st) = Some "↑") by reflexivity.
  split; [exact Hup|].
  exact (proj1 (arrow_tells_the_order no_listeners st name Hne HC) Hup).
Defined.

(** X19.  A sortable column whose field is the empty string shows an
    arrow after a click, but the view stays in filtered order: the empty
    field counts as no sort. *)
Theorem empty_field_arrow_without_order props st col :
  Column.field col = "" →
  Column.sortable col = true →
  let st' := (Column.onClick props col st).1 in
  (Column.indicator col (sort st') = Some "↑" ∨
   Column.indicator col (sort st') = Some "↓") ∧
  derivedView props st' = filteredRows (data props) (filters st).
Proof.
  intros Hf Hs. cbv zeta. unfold Column.onClick. rewrite Hs. split.
  - rewrite handleSort_sort. unfold Column.indicator. rewrite Hs. simpl.
    rewrite bool_decide_eq_true_2 by done.
    destruct (bool_decide (sort st = _)); simpl; auto.
  - unfold derivedView. rewrite sortedFilteredData_eq, handleSort_sort.
    simpl. by rewrite Hf.
Qed.

Lemma empty_field_arrow_without_order_witness :
  let col := Column.mk "" true None in
  let st' := (Column.onClick no_listeners col (initialState no_listeners)).1 in
  Column.field col = "" ∧ Column.sortable col = true ∧
  (Column.indicator col (sort st') = Some "↑" ∨
   Column.indicator col (sort st') = Some "↓") ∧
  derivedView no_listeners st'
  = filteredRows (data no_listeners) (filters (initialState no_listeners)).
Proof.
  intros col st'.
  assert (Hf : Column.field col = "") by reflexivity.
  assert (Hs : Column.sortable col = true) by reflexivity.
  split; [exact Hf|]. split; [exact Hs|].
  exact (empty_field_arrow_without_order no_listeners (initialState no_listeners) col Hf Hs).
Defined.

(** X20.  The text input of a column touches only the entry of that
    column, and what was typed before leaves no trace: after two changes
    the registry and the view are those of the second change alone. *)
Theorem later_input_replaces_earlier props st col value1 value2 :
  let st1 := (Column.handleFilterChange props col st value1).1 in
  let st12 := (Column.handleFilterChange props col st1 value2).1 in
  let st2 := (Column.handleFilterChange props col st value2).1 in
  (∀ field, filters st12 !! field = filters st2 !! field) ∧
  derivedView props st12 = derivedView props st2 ∧
  (∀ field, field ≠ Column.field col → filters st1 !! field = filters st !! field) ∧
  sort st1 = sort st ∧ selectedRows st1 = selectedRows st.
Proof.
  cbv zeta. unfold Column.handleFilterChange.
  destruct (Column.filter col) as [factory|]; [|done].
  unfold derivedView, handleFilter; simpl.
  rewrite insert_insert_eq. repeat split; try done.
  intros field Hne. by rewrite lookup_insert_ne.
Qed.

Lemma later_input_replaces_earlier_witness :
  let col := Column.mk "name" false
               (Some (fun value => if String.eqb value "a"
                                   then Some name_starts_with_a else None)) in
  let st := initialState no_listeners in
  "id" ≠ Column.field col ∧
  filters (Column.handleFilterChange no_listeners col st "a").1 !! "id"
  = filters st !! "id".
Proof.
  intros col st.
  assert (Hne : "id" ≠ Column.field col) by discriminate.
  split; [exact Hne|].
  exact (proj1 (proj2 (proj2 (later_input_replaces_earlier no_listeners st col "a" "b")))
           "id" Hne).
Defined.

(** X21.  [Body] renders the rows of the view in order, one element per
    row, keyed by position: the keys are [0], [1], ... and therefore
    distinct, also when a row occurs twice. *)
Theorem body_keys_are_positions view :
  (Body.render view).*1 = seq 0 (length view) ∧
  (Body.render view).*2 = view ∧
  NoDup (Body.render view).*1.
Proof.
  assert (H1 : (Body.render view).*1 = seq 0 (length view)).
  { unfold Body.render. rewrite fmap_imap.
    rewrite (imap_ext _ (fun n (_ : Row) => id n)) by done.
    rewrite (imap_seq_0 view id). apply list_fmap_id. }
  split; [exact H1|]. split.
  - unfold Body.render. rewrite fmap_imap.
    rewrite (imap_ext _ (const id)) by done.
    rewrite imap_const. apply list_fmap_id.
  - rewrite H1. apply NoDup_seq.
Qed.

(** X22.  A click on a row changes the class of that row, between
    selected and not, and of no other row; the rows that [Body] renders
    and their keys stay the same. *)
Theorem row_click_flips_its_mark props st row :
  let st' := (RowSlot.onClick props st row).1 in
  RowSlot.className (selectedRows st') row
  = (if JsSet.has row (selectedRows st) then "data-grid-row " else "data-grid-row selected") ∧
  RowSlot.className (selectedRows st) row
  = (if JsSet.has row (selectedRows st) then "data-grid-row selected" else "data-grid-row ") ∧
  (∀ other, other ≠ row →
     RowSlot.className (selectedRows st') other
     = RowSlot.className (selectedRows st) other) ∧
  Body.render (derivedView props st') = Body.render (derivedView props st).
Proof.
  cbv zeta. unfold RowSlot.onClick, RowSlot.className.
  split; [|split; [|split]].
  - rewrite handleRowSelect_has, bool_decide_eq_true_2 by done.
    by destruct (JsSet.has row (selectedRows st)).
  - by destruct (JsSet.has row (selectedRows st)).
  - intros other Hne. by rewrite handleRowSelect_has, bool_decide_eq_false_2.
  - done.
Qed.

Lemma row_click_flips_its_mark_witness :
  let r1 := row_of 1 [("id", VNum 1); ("name", VStr "b")] in
  let r2 := row_of 2 [("id", VNum 2); ("name", VStr "a")] in
  let st := initialState no_listeners in
  r2 ≠ r1 ∧
  RowSlot.className (selectedRows (RowSlot.onClick no_listeners st r1).1) r2
  = RowSlot.className (selectedRows st) r2.
Proof.
  intros r1 r2 st.
  assert (Hne : r2 ≠ r1) by discriminate.
  split; [exact Hne|].
  exact (proj1 (proj2 (proj2 (row_click_flips_its_mark no_listeners st r1))) r2 Hne).
Defined.

(** ** Hosts that conform *)

Lemma filter_reverse {A} (f : A -> bool) l :
  List.filter f (reverse l) = reverse (List.filter f l).
Proof.
  induction l as [|x l IH]; [done|].
  rewrite reverse_cons, List.filter_app, IH. simpl.
  destruct (f x); [by rewrite reverse_cons|by rewrite app_nil_r].
Qed.

Lemma StronglySorted_impl {A} (R R' : A -> A -> Prop) (D : A -> Prop) l :
  (∀ a b, D a → D b → R a b → R' a b) →
  Forall D l → StronglySorted R l → StronglySorted R' l.
Proof.
  intros HR HD Hs. induction Hs as [|a l Hs IH Hf]; constructor.
  - apply IH. by apply Forall_cons in HD as [_ ?].
  - apply Forall_cons in HD as [Da HD].
    rewrite Forall_forall in Hf, HD |- *. intros b Hb. apply HR; auto.
Qed.

(** A chain whose links are in a relation that is transitive on the
    elements is pairwise related. *)
Lemma chain_StronglySorted {A} (R Q : A -> A -> Prop) (D : A -> Prop) l :
  (∀ a b, D a → D b → R a b → Q a b) →
  (∀ a b d, D a → D b → D d → Q a b → Q b d → Q a d) →
  Forall D l → Sorted R l → StronglySorted Q l.
Proof.
  intros HRQ Htrans HD Hs. induction Hs as [|a l Hs IH Hhd]; constructor.
  - apply IH. by apply Forall_cons in HD as [_ ?].
  - apply Forall_cons in HD as [Da HD].
    destruct Hhd as [|b l Hab]; constructor.
    + apply Forall_cons in HD as [Db HD]. by apply HRQ.
    + apply Forall_cons in HD as [Db HD].
      assert (Hsl : StronglySorted Q (b :: l)) by (apply IH; by constructor).
      apply StronglySorted_inv in Hsl as [_ Hb].
      rewrite Forall_forall in Hb, HD |- *. intros y Hy.
      apply (Htrans a b y); auto.
Qed.

Lemma filter_at_most_one {A} (Q : A -> A -> Prop) (f : A -> bool) l :
  (∀ x y, x ∈ l → y ∈ l → Q x y → f x = true → f y = true → False) →
  StronglySorted Q l → (length (List.filter f l) ≤ 1)%nat.
Proof.
  intros Hex Hs. induction Hs as [|a l Hs IH Hf]; simpl; [lia|].
  assert (IH' : (length (List.filter f l) ≤ 1)%nat).
  { apply IH. intros x y Hx Hy. apply Hex; by right. }
  destruct (f a) eqn:Hfa; [|done].
  rewrite filter_none; [simpl; lia|].
  intros y Hy. destruct (f y) eqn:Hfy; [|done]. exfalso.
  rewrite Forall_forall in Hf.
  apply (Hex a y); auto; [left|by right].
Qed.

Lemma reverse_short {A} (l : list A) : (length l ≤ 1)%nat → reverse l = l.
Proof. destruct l as [|x [|y l]]; simpl; intros; (done || lia). Qed.

Section InsertionConforms.
Context {A : Type} (c : A -> A -> Z).

Lemma sort_insert_sorted_on (D : A -> Prop) x l :
  (∀ a b, D a → D b → c a b > 0 → before c b a) →
  (∀ a b d, D a → D b → D d → before c a b → before c b d → before c a d) →
  D x → Forall D l →
  StronglySorted (before c) l → StronglySorted (before c) (sort_insert c x l).
Proof.
  intros Hanti Htrans Dx.
  induction l as [|y l IH]; intros HD Hs; simpl.
  - repeat constructor.
  - apply Forall_cons in HD as [Dy HD].
    apply StronglySorted_inv in Hs as [Hs Hy].
    destruct (c x y <=? 0) eqn:Hc.
    + apply Z.leb_le in Hc. constructor; [by constructor|].
      constructor; [done|].
      rewrite Forall_forall in Hy, HD |- *. intros z Hz.
      apply (Htrans x y z); auto.
    + apply Z.leb_gt in Hc. constructor; [by apply IH|].
      rewrite sort_insert_perm. constructor; [apply Hanti; auto; lia|done].
Qed.

End InsertionConforms.

Lemma Array_sort_conforming {A} : Conforming (Array_sort (A := A)).
Proof.
  intros comparefn l. split; [apply Array_sort_perm|].
  intros [Hsign Htrans]. split.
  - assert (Hgen : ∀ k, Forall (fun a => a ∈ l) k →
                        StronglySorted (before comparefn) (Array_sort comparefn k)).
    { induction k as [|x k IH]; intros HD; simpl; [constructor|].
      apply Forall_cons in HD as [Dx HD].
      apply (sort_insert_sorted_on comparefn (fun a => a ∈ l)); auto.
      - intros a b Ha Hb Hab. unfold before.
        destruct (Hsign b a Hb Ha) as [H1 _]. lia.
      - by rewrite Array_sort_perm. }
    apply Hgen. by apply Forall_forall.
  - intros r Hr. apply Array_sort_stable.
    intros x y Hx Hy [_ Hxr]%andb_true_iff [Hry _]%andb_true_iff.
    apply Z.leb_le in Hxr, Hry. by apply (Htrans x r y).
Qed.

Section V8Rearranges.
Context {A : Type} (c : A -> A -> Z).

Lemma binary_insert_perm s pivot : V8.binary_insert c s pivot ≡ₚ s ++ [pivot].
Proof.
  unfold V8.binary_insert.
  rewrite <- Permutation_middle, Permutation_cons_append.
  by rewrite take_drop.
Qed.

Lemma BinaryInsertionSort_perm run rest :
  V8.BinaryInsertionSort c run rest ≡ₚ run ++ rest.
Proof.
  unfold V8.BinaryInsertionSort. revert run.
  induction rest as [|p rest IH]; intros run; simpl.
  - by rewrite app_nil_r.
  - rewrite IH, binary_insert_perm. by rewrite <- app_assoc.
Qed.

Lemma CountAndMakeRun_perm l :
  (V8.CountAndMakeRun c l).1 ++ (V8.CountAndMakeRun c l).2 ≡ₚ l.
Proof.
  destruct l as [|x0 [|x1 rest]]; [done|done|].
  unfold V8.CountAndMakeRun.
  destruct (c x1 x0 <? 0); cbn [fst snd].
  - by rewrite reverse_Permutation, take_drop.
  - by rewrite take_drop.
Qed.

Lemma V8_Array_sort_perm l : V8.Array_sort c l ≡ₚ l.
Proof.
  unfold V8.Array_sort.
  pose proof (CountAndMakeRun_perm l) as Hp.
  destruct (V8.CountAndMakeRun c l) as [run rest].
  by rewrite BinaryInsertionSort_perm.
Qed.

End V8Rearranges.

Section V8Conforms.
Context {A : Type} (c : A -> A -> Z) (l0 : list A).
Hypothesis HC : Consistent c l0.

Local Abbreviation D := (fun a => a ∈ l0).
Local Abbreviation le := (before c).

Lemma consistent_le_of_ge a b : D a → D b → c a b >= 0 → le b a.
Proof.
  intros Ha Hb Hab. destruct HC as [Hsign _].
  destruct (Hsign b a Hb Ha) as [H1 H2]. unfold before. lia.
Qed.

Lemma consistent_gt_of_lt a b : D a → D b → c a b < 0 → c b a > 0.
Proof.
  intros Ha Hb Hab. destruct HC as [Hsign _].
  by apply (Hsign a b Ha Hb).
Qed.

Lemma consistent_le_trans a b d : D a → D b → D d → le a b → le b d → le a d.
Proof. destruct HC as [_ Htrans]. apply Htrans. Qed.

Lemma consistent_lt_le_trans a b d : D a → D b → D d → c a b < 0 → le b d → c a d < 0.
Proof.
  intros Ha Hb Hd Hab Hbd.
  destruct (Z_lt_ge_dec (c a d) 0) as [|Hge]; [done|]. exfalso.
  pose proof (consistent_le_of_ge a d Ha Hd Hge) as Hda.
  pose proof (consistent_le_trans b d a Hb Hd Ha Hbd Hda) as Hba.
  pose proof (consistent_gt_of_lt a b Ha Hb Hab). unfold before in Hba. lia.
Qed.

Lemma consistent_lt_trans a b d : D a → D b → D d → c a b < 0 → c b d < 0 → c a d < 0.
Proof.
  intros Ha Hb Hd Hab Hbd. apply (consistent_lt_le_trans a b d); auto.
  unfold before. lia.
Qed.

Lemma tie_class_le r x y :
  D r → D x → D y →
  tie_class c r x = true → tie_class c r y = true → le x y.
Proof.
  intros Hr Hx Hy [_ Hxr]%andb_true_iff [Hry _]%andb_true_iff.
  apply Z.leb_le in Hxr, Hry. by apply (consistent_le_trans x r y).
Qed.

(** The binary search returns the place after the elements that are
    not after [pivot] and before those that are. *)
Lemma search_spec pivot s :
  D pivot → Forall D s → StronglySorted le s →
  ∀ fuel left right,
    (left ≤ right)%nat → (right ≤ length s)%nat → (right - left ≤ fuel)%nat →
    Forall (fun e => le e pivot) (take left s) →
    Forall (fun e => c pivot e < 0) (drop right s) →
    Forall (fun e => le e pivot) (take (V8.search fuel c pivot s left right) s) ∧
    Forall (fun e => c pivot e < 0) (drop (V8.search fuel c pivot s left right) s).
Proof.
  intros Dp HD Hs. rewrite Forall_forall in HD.
  induction fuel as [|fuel IH]; intros left right Hlr Hrl Hfuel Hleft Hright.
  - simpl. by replace right with left in Hright by lia.
  - cbn [V8.search]. destruct (left <? right)%nat eqn:Hlt.
    2:{ apply Nat.ltb_ge in Hlt. by replace right with left in Hright by lia. }
    apply Nat.ltb_lt in Hlt. cbv zeta.
    set (mid := (left + (right - left) / 2)%nat).
    assert (Hhalf : ((right - left) / 2 < right - left)%nat)
      by (apply Nat.div_lt; lia).
    assert (Hmid : (left ≤ mid < right)%nat) by (unfold mid; lia).
    destruct (lookup_lt_is_Some_2 s mid) as [e He]; [lia|]. rewrite He.
    assert (De : D e) by (apply HD; by eapply list_elem_of_lookup_2).
    pose proof (take_drop mid s) as Hsplit.
    rewrite (drop_S _ _ _ He) in Hsplit.
    assert (Hs' : StronglySorted le (take mid s ++ e :: drop (S mid) s))
      by (by rewrite Hsplit).
    apply StronglySorted_app in Hs' as (Hcross & _ & Htail).
    apply StronglySorted_inv in Htail as [_ Hafter].
    destruct (c pivot e <? 0) eqn:Hc.
    + apply Z.ltb_lt in Hc. apply IH; [lia|lia|unfold mid; lia|done|].
      rewrite (drop_S _ _ _ He). constructor; [done|].
      rewrite Forall_forall in Hafter |- *. intros y Hy.
      apply (consistent_lt_le_trans pivot e y); auto.
      apply HD. eapply subseteq_drop, Hy.
    + apply Z.ltb_ge in Hc. apply IH; [lia|lia|unfold mid; lia| |done].
      replace (mid + 1)%nat with (S mid) by lia.
      rewrite (take_S_r _ _ _ He).
      assert (Hep : le e pivot) by (apply consistent_le_of_ge; auto; lia).
      apply Forall_app. split; [|by repeat constructor].
      apply Forall_forall. intros x Hx.
      apply (consistent_le_trans x e pivot); auto.
      * apply HD. eapply subseteq_take, Hx.
      * apply Hcross; [done|left].
Qed.

Lemma binary_insert_spec s pivot :
  D pivot → Forall D s → StronglySorted le s →
  StronglySorted le (V8.binary_insert c s pivot) ∧
  ∀ r, D r →
    List.filter (tie_class c r) (V8.binary_insert c s pivot)
    = List.filter (tie_class c r) (s ++ [pivot]).
Proof.
  intros Dp HD Hs. unfold V8.binary_insert.
  set (i := V8.search (length s) c pivot s 0 (length s)).
  destruct (search_spec pivot s Dp HD Hs (length s) 0 (length s)) as [Hbefore Hafter];
    [lia|lia|lia|constructor|by rewrite drop_all|].
  fold i in Hbefore, Hafter.
  pose proof (take_drop i s) as Hsplit.
  assert (Hs' : StronglySorted le (take i s ++ drop i s)) by (by rewrite Hsplit).
  apply StronglySorted_app in Hs' as (Hcross & Hs1 & Hs2).
  assert (HD2 : Forall D (drop i s)).
  { apply Forall_forall. intros y Hy. rewrite Forall_forall in HD.
    apply HD. eapply subseteq_drop, Hy. }
  revert Hsplit Hbefore Hafter Hcross Hs1 Hs2 HD2.
  generalize (take i s) (drop i s). intros s1 s2 Hsplit Hbefore Hafter Hcross Hs1 Hs2 HD2.
  rewrite Forall_forall in HD, HD2, Hbefore, Hafter. split.
  - apply StronglySorted_app_2; [|done|].
    + intros x y Hx [->|Hy]%elem_of_cons; [by apply Hbefore|by apply Hcross].
    + constructor; [done|]. apply Forall_forall. intros y Hy.
      specialize (Hafter y Hy). unfold before. lia.
  - intros r Dr. rewrite <- Hsplit.
    rewrite !List.filter_app, <- app_assoc. f_equal. simpl.
    destruct (tie_class c r pivot) eqn:Hp; [|by rewrite app_nil_r].
    rewrite (filter_none _ s2); [done|].
    intros y Hy. destruct (tie_class c r y) eqn:Hty; [|done]. exfalso.
    assert (Dy : D y) by (by apply HD2).
    pose proof (tie_class_le r y pivot Dr Dy Dp Hty Hp) as Hle.
    pose proof (consistent_gt_of_lt pivot y Dp Dy (Hafter y Hy)).
    unfold before in Hle. lia.
Qed.

Lemma BinaryInsertionSort_spec rest :
  Forall D rest →
  ∀ run, Forall D run → StronglySorted le run →
    StronglySorted le (V8.BinaryInsertionSort c run rest) ∧
    ∀ r, D r →
      List.filter (tie_class c r) (V8.BinaryInsertionSort c run rest)
      = List.filter (tie_class c r) (run ++ rest).
Proof.
  unfold V8.BinaryInsertionSort.
  induction rest as [|p rest IH]; intros HDrest run HD Hs; simpl.
  - split; [done|]. intros r _. by rewrite app_nil_r.
  - apply Forall_cons in HDrest as [Dp HDrest].
    destruct (binary_insert_spec run p Dp HD Hs) as [Hs1 Hf1].
    destruct (IH HDrest (V8.binary_insert c run p)) as [Hs2 Hf2]; [|done|].
    { apply Forall_forall. intros x Hx. rewrite binary_insert_perm in Hx.
      apply elem_of_app in Hx as [Hx|Hx].
      - rewrite Forall_forall in HD. by apply HD.
      - by apply list_elem_of_singleton in Hx as ->. }
    split; [done|]. intros r Dr.
    rewrite (Hf2 r Dr), !List.filter_app, (Hf1 r Dr), List.filter_app.
    rewrite <- app_assoc. f_equal. simpl. by destruct (tie_class c r p).
Qed.

(** The elements that continue the run form a chain. *)
Lemma run_rest_chain (isDescending : bool) prev rest :
  Sorted (fun p q => if isDescending then c q p < 0 else c q p >= 0)
    (prev :: take (V8.run_rest c isDescending prev rest) rest).
Proof.
  revert prev. induction rest as [|cur rest IH]; intros prev; simpl.
  - repeat constructor.
  - destruct isDescending.
    + destruct (0 <=? c cur prev) eqn:Ho; simpl; [repeat constructor|].
      apply Z.leb_gt in Ho. constructor; [apply IH|]. by constructor.
    + destruct (c cur prev <? 0) eqn:Ho; simpl; [repeat constructor|].
      apply Z.ltb_ge in Ho. constructor; [apply IH|]. constructor. lia.
Qed.

Lemma CountAndMakeRun_spec l :
  Forall D l →
  StronglySorted le (V8.CountAndMakeRun c l).1 ∧
  ∀ r, D r →
    List.filter (tie_class c r)
      ((V8.CountAndMakeRun c l).1 ++ (V8.CountAndMakeRun c l).2)
    = List.filter (tie_class c r) l.
Proof.
  intros HD.
  destruct l as [|x0 [|x1 rest]]; [by split; [constructor|]| |].
  { split; [repeat constructor|]. by intros r _. }
  unfold V8.CountAndMakeRun.
  set (isDescending := c x1 x0 <? 0).
  set (n := (2 + V8.run_rest c isDescending x1 rest)%nat).
  assert (Hchain : Sorted (fun p q => if isDescending then c q p < 0 else c q p >= 0)
                     (take n (x0 :: x1 :: rest))).
  { unfold n. simpl. constructor; [apply run_rest_chain|].
    constructor. unfold isDescending.
    destruct (c x1 x0 <? 0) eqn:Ho; [by apply Z.ltb_lt in Ho|].
    apply Z.ltb_ge in Ho. lia. }
  assert (HDrun : Forall D (take n (x0 :: x1 :: rest))).
  { apply Forall_forall. intros x Hx. rewrite Forall_forall in HD.
    apply HD. eapply subseteq_take, Hx. }
  destruct isDescending; cbn [fst snd].
  - assert (Hdesc : StronglySorted (fun p q => c q p < 0) (take n (x0 :: x1 :: rest))).
    { apply (chain_StronglySorted (fun p q => c q p < 0) (fun p q => c q p < 0) D);
        auto.
      intros a b d Da Db Dd Hab Hbd. by apply (consistent_lt_trans d b a). }
    split.
    + apply StronglySorted_reverse in Hdesc.
      apply (StronglySorted_impl (flip (fun p q => c q p < 0)) _ D).
      * intros a b _ _ Hab. unfold flip in Hab. unfold before. lia.
      * apply Forall_forall. intros x Hx. rewrite elem_of_reverse in Hx.
        rewrite Forall_forall in HDrun. by apply HDrun.
      * done.
    + intros r Dr. rewrite <- (take_drop n (x0 :: x1 :: rest)) at 3.
      rewrite !List.filter_app. f_equal.
      rewrite filter_reverse. apply reverse_short.
      apply (filter_at_most_one (fun p q => c q p < 0)); [|done].
      intros x y Hx Hy Hyx Tx Ty. rewrite Forall_forall in HDrun.
      pose proof (tie_class_le r x y Dr (HDrun x Hx) (HDrun y Hy) Tx Ty) as Hle.
      pose proof (consistent_gt_of_lt y x (HDrun y Hy) (HDrun x Hx) Hyx).
      unfold before in Hle. lia.
  - split.
    + apply (chain_StronglySorted (fun p q => c q p >= 0) le D); auto.
      * intros a b Da Db Hab. by apply consistent_le_of_ge.
      * apply consistent_le_trans.
    + intros r _. by rewrite take_drop.
Qed.

End V8Conforms.

Lemma V8_Array_sort_conforming {A} : Conforming (V8.Array_sort (A := A)).
Proof.
  intros comparefn l. split; [apply V8_Array_sort_perm|].
  intros HC.
  assert (HD : Forall (fun a => a ∈ l) l) by (by apply Forall_forall).
  pose proof (CountAndMakeRun_perm comparefn l) as Hp.
  destruct (CountAndMakeRun_spec comparefn l HC l HD) as [Hrun Hfilter].
  unfold V8.Array_sort.
  destruct (V8.CountAndMakeRun comparefn l) as [run rest]; cbn [fst snd] in *.
  assert (HDrun : Forall (fun a => a ∈ l) run).
  { apply Forall_forall. intros x Hx. rewrite <- Hp. apply elem_of_app. by left. }
  assert (HDrest : Forall (fun a => a ∈ l) rest).
  { apply Forall_forall. intros x Hx. rewrite <- Hp. apply elem_of_app. by right. }
  destruct (BinaryInsertionSort_spec comparefn l HC rest HDrest run HDrun Hrun)
    as [Hs Hf].
  split; [done|]. intros r Hr. by rewrite (Hf r Hr), (Hfilter r Hr).
Qed.

(** ** The view on any conforming host *)

Lemma sortedFilteredData_on_Array_sort data filters sort :
  sortedFilteredData_on Array_sort data filters sort
  = sortedFilteredData data filters sort.
Proof. done. Qed.

Lemma sortedFilteredData_on_eq hostSort data filters sort :
  sortedFilteredData_on hostSort data filters sort
  = if truthy (sort_field sort)
    then hostSort (compare_rows sort) (filteredRows data filters)
    else filteredRows data filters.
Proof. unfold sortedFilteredData_on. by rewrite foldl_apply_filter. Qed.

Lemma compare_rows_sign sort a b :
  (compare_rows sort a b < 0 ↔ compare_rows sort b a > 0) ∧
  (compare_rows sort a b = 0 ↔ compare_rows sort b a = 0).
Proof.
  unfold compare_rows, js_gt.
  destruct (js_lt (row_get b _) (row_get a _)) eqn:Hgt;
    destruct (js_lt (row_get a _) (row_get b _)) eqn:Hlt;
    try (by rewrite (js_lt_asym _ _ Hgt) in Hlt);
    destruct (decide (sort_direction sort = Some "asc")); lia.
Qed.

(** On comparable sort values the comparator is consistent. *)
Lemma compare_rows_consistent sort rows :
  Comparable (map (field_value sort) rows) →
  Consistent (compare_rows sort) rows.
Proof.
  intros HC. split.
  - intros a b _ _. apply compare_rows_sign.
  - by apply Comparable_before.
Qed.

(** On comparable sort values every conforming host computes the view
    of [sortedFilteredData]. *)
Lemma conforming_view hostSort data filters sort :
  Conforming hostSort →
  Comparable (map (field_value sort) (filteredRows data filters)) →
  sortedFilteredData_on hostSort data filters sort
  = sortedFilteredData data filters sort.
Proof.
  intros Hhost HC.
  rewrite sortedFilteredData_on_eq, sortedFilteredData_eq.
  destruct (truthy (sort_field sort)); [|done].
  destruct (Hhost (compare_rows sort) (filteredRows data filters)) as [Hp Hcons].
  destruct (Hcons (compare_rows_consistent sort _ HC)) as [Hs Hf].
  apply Array_sort_unique; auto.
  - intros a. apply tied_before. unfold tied, js_gt. split; apply js_lt_irrefl.
  - apply compare_rows_antisym.
  - by apply Comparable_before.
Qed.

Lemma view_on_perm hostSort data filters sort :
  Conforming hostSort →
  sortedFilteredData_on hostSort data filters sort ≡ₚ filteredRows data filters.
Proof.
  intros Hhost. rewrite sortedFilteredData_on_eq.
  destruct (truthy _); [|done]. apply Hhost.
Qed.

Lemma tie_rows_view_V8 :
  map row_ref (sortedFilteredData_on V8.Array_sort tie_rows ∅ by_v_asc)
  = [1; 3; 0; 2]%nat.
Proof. vm_compute. reflexivity. Qed.

Lemma tie_rows_tied_23 a b :
  a ∈ filteredRows tie_rows ∅ → b ∈ filteredRows tie_rows ∅ →
  ref_in [2%nat; 3%nat] a = true → ref_in [2%nat; 3%nat] b = true →
  tied by_v_asc a b.
Proof.
  assert (Hf : filteredRows tie_rows ∅ = tie_rows) by (vm_compute; reflexivity).
  rewrite Hf. unfold tie_rows. rewrite !elem_of_cons, !elem_of_nil.
  intros [->|[->|[->|[->|[]]]]] [->|[->|[->|[->|[]]]]];
    vm_compute; intros; (done || by split).
Qed.

(** C9 as stated fails on V8 for [{v: 4}, {v: 2}, {}, {v: 2}] sorted by
    [v] ascending: the row without [v] and the second [{v: 2}] are
    neither greater nor less than each other, and the view, with row
    references 1, 3, 0, 2, has them in the opposite of their filtered
    order. *)
Lemma tied_rows_swapped_on_V8 :
  ¬ view_stable_on V8.Array_sort tie_rows ∅ by_v_asc.
Proof.
  intros Hstable.
  specialize (Hstable (ref_in [2%nat; 3%nat]) tie_rows_tied_23).
  vm_compute in Hstable. discriminate.
Qed.

(** C9, amended.  The comparator returns [0] on two rows whose sort
    values are neither greater nor less than each other, and a missing
    or undefined value is in that relation with every value.  Whatever
    conforming sort the host runs, such rows are never dropped (the view
    is a rearrangement of the filtered input); and when the sort values
    of the filtered rows are mutually comparable, rows tied with one
    another keep their filtered order, in particular the rows whose sort
    value is undefined. *)
Theorem tied_rows_kept_when_comparable hostSort data filters sort :
  Conforming hostSort →
  (∀ a b, tied sort a b → compare_rows sort a b = 0) ∧
  (∀ a b, field_value sort a = VUndefined ∨ field_value sort b = VUndefined →
          tied sort a b) ∧
  sortedFilteredData_on hostSort data filters sort ≡ₚ filteredRows data filters ∧
  (Comparable (map (field_value sort) (filteredRows data filters)) →
   view_stable_on hostSort data filters sort ∧
   List.filter (is_undefined sort) (sortedFilteredData_on hostSort data filters sort)
   = List.filter (is_undefined sort) (filteredRows data filters)).
Proof.
  intros Hhost.
  split; [intros a b; apply compare_rows_tied|].
  split; [apply undefined_tied|].
  split; [by apply view_on_perm|].
  intros HC.
  assert (Hstable : view_stable_on hostSort data filters sort).
  { intros keep Hkeep. rewrite conforming_view by done.
    by apply view_stable_holds. }
  split; [exact Hstable|].
  apply Hstable. intros a b _ _ Ha%bool_decide_eq_true _.
  apply undefined_tied. by left.
Qed.

Lemma tied_rows_kept_when_comparable_witness :
  Conforming (V8.Array_sort (A := Row)) ∧
  Comparable (map (field_value (mkSort (Some "price") (Some "asc")))
                (filteredRows name_rows ∅)) ∧
  List.filter (is_undefined (mkSort (Some "price") (Some "asc")))
    (sortedFilteredData_on V8.Array_sort name_rows ∅ (mkSort (Some "price") (Some "asc")))
  = List.filter (is_undefined (mkSort (Some "price") (Some "asc")))
      (filteredRows name_rows ∅).
Proof.
  assert (Hhost : Conforming (V8.Array_sort (A := Row)))
    by apply V8_Array_sort_conforming.
  assert (HC : Comparable (map (field_value (mkSort (Some "price") (Some "asc")))
                             (filteredRows name_rows ∅))).
  { apply comparableb_spec. vm_compute. reflexivity. }
  split; [exact Hhost|]. split; [exact HC|].
  exact (proj2 (proj2 (proj2 (proj2 (tied_rows_kept_when_comparable
           V8.Array_sort name_rows ∅ (mkSort (Some "price") (Some "asc")) Hhost))) HC)).
Defined.

(** A NaN among numbers breaks comparability: it is tied with every
    number. *)
Lemma NaN_not_comparable : ¬ Comparable [VNum 2; VNaN; VNum 1].
Proof.
  intros HC%comparableb_spec. vm_compute in HC. discriminate.
Qed.

(** ** Scenarios *)

(** On rows that are not mutually comparable hosts differ: V8 and the
    reference arrangement on [{v: 4}, {v: 2}, {}, {v: 2}]; on
    [{v: 2}, {}, {v: 1}] both leave the rows as they are. *)
Example scenario_hosts_differ :
  map row_ref (sortedFilteredData_on V8.Array_sort tie_rows ∅ by_v_asc)
  = [1; 3; 0; 2]%nat ∧
  map row_ref (sortedFilteredData tie_rows ∅ by_v_asc) = [1; 0; 2; 3]%nat ∧
  map row_ref (sortedFilteredData_on V8.Array_sort gap_rows ∅ by_v_asc)
  = [0; 1; 2]%nat ∧
  map row_ref (sortedFilteredData gap_rows ∅ by_v_asc) = [0; 1; 2]%nat.
Proof. vm_compute. repeat split. Qed.

Example relational_operators :
  js_gt (VStr "b") (VStr "a") = true ∧
  js_gt (VStr "10") (VNum 9) = true ∧
  js_gt (VStr "9") (VStr "10") = true ∧
  js_gt VUndefined (VNum 1) = false ∧
  js_lt VUndefined (VNum 1) = false ∧
  js_lt VNull (VNum 1) = true.
Proof. repeat split. Qed.

(** Sorting by name: ascending on the first call, descending on the
    second. *)
Example scenario_sort_by_name :
  let st0 := initialState no_listeners in
  map row_ref (derivedView no_listeners st0) = [1; 2]%nat ∧
  map row_ref (derivedView no_listeners (clicks no_listeners "name" 1 st0)) = [2; 1]%nat ∧
  map row_ref (derivedView no_listeners (clicks no_listeners "name" 2 st0)) = [1; 2]%nat.
Proof. vm_compute. repeat split. Qed.

(** Filtering on names that start with ['a']. *)
Example scenario_filter_by_name :
  let st0 := initialState no_listeners in
  map row_ref
    (derivedView no_listeners
       (handleFilter no_listeners st0 "name" (Some name_starts_with_a)).1)
  = [2]%nat.
Proof. vm_compute. reflexivity. Qed.

(** Selecting row 1, then row 2, then row 1 again leaves row 2. *)
Example scenario_toggle_selection :
  let r1 := row_of 1 [("id", VNum 1)] in
  let r2 := row_of 2 [("id", VNum 2)] in
  let st0 := initialState no_listeners in
  let st1 := (handleRowSelect no_listeners st0 r1).1 in
  let st2 := (handleRowSelect no_listeners st1 r2).1 in
  let st3 := (handleRowSelect no_listeners st2 r1).1 in
  selectedRows st3 = [r2].
Proof. vm_compute. reflexivity. Qed.

(** The listeners are called with the new state, or not at all. *)
Example scenario_listeners :
  let st0 := initialState all_listeners in
  (handleSort all_listeners st0 "name").2
  = [CallOnSort (mkSort (Some "name") (Some "asc"))] ∧
  (handleSort no_listeners st0 "name").2 = [] ∧
  (handleRowSelect all_listeners st0 (row_of 7 [])).2
  = [CallOnRowSelect [row_of 7 []]].
Proof. repeat split. Qed.

(** A selected row in the middle of the insertion order moves to its end
    when it is toggled twice. *)
Example scenario_toggle_twice_reorders :
  let a := row_of 1 [] in
  let b := row_of 2 [] in
  let st := {| sort := mkSort None None; filters := ∅; selectedRows := [a; b] |} in
  selectedRows
    (handleRowSelect no_listeners (handleRowSelect no_listeners st a).1 a).1
  = [b; a].
Proof. vm_compute. reflexivity. Qed.

(** The pipeline on a store whose only array is the source. *)
Example scenario_store :
  let h : gmap nat (list Row) := {[ 5%nat := name_rows ]} in
  match sortedFilteredData_mem 5%nat ∅ by_name_asc h with
  | Some (out, h') =>
      out ≠ 5%nat ∧ h' !! 5%nat = Some name_rows ∧
      map row_ref <$> h' !! out = Some [2; 1]%nat
  | None => False
  end.
Proof. vm_compute. repeat split. discriminate. Qed.
